(** * go-graphsync: wire message, peer manager and request manager

    A shallow embedding of [message/message.go], of the peer manager
    ([peermanager/peermanager.go]) and of the request manager's event
    loop, followed by the properties of the specification that concern
    them.

    Conventions.  Go's [int32] values are integers of [Z]; the only
    arithmetic the code performs on them is [rm.nextRequestID++], whose
    two's complement wrap-around is written out with [wrap32].  A [[]byte]
    is a [list byte] (a nil slice is the empty list).  A Go map is a
    [gmap]; where the code ranges over a map (an unspecified order in Go)
    the model admits every order.  An [error] is the string it prints. *)

From Stdlib Require Import ZArith Lia Strings.Byte.
From stdpp Require Import gmap strings list fin_maps.

Local Open Scope Z_scope.

(** ** Machine integers *)

Definition wrap (bits : Z) (z : Z) : Z :=
  (z + 2 ^ (bits - 1)) mod 2 ^ bits - 2 ^ (bits - 1).

(** [int32] arithmetic. *)
Definition wrap32 (z : Z) : Z := wrap 32 z.

(** Go's [int] on the 64-bit targets the module is built for. *)
Definition wrapInt (z : Z) : Z := wrap 64 z.

Definition MaxInt32 : Z := 2147483647.
Definition MinInt32 : Z := -2147483648.

Definition bytes := list byte.

#[global] Instance byte_eqdec : EqDecision byte := Byte.byte_eq_dec.

#[global] Instance byte_countable : Countable byte :=
  inj_countable Byte.to_N Byte.of_N Byte.of_to_N.

(** peer.ID is a Go string type. *)
Definition peerID := string.

(** * message/message.go *)
Module Message.

(** [type GraphSyncRequestID int32], [GraphSyncPriority int32],
    [GraphSyncResponseStatusCode int32]. *)
Definition GraphSyncRequestID := Z.
Definition GraphSyncPriority := Z.
Definition GraphSyncResponseStatusCode := Z.

(** Informational Response Codes (partial) *)
Definition RequestAcknowledged : GraphSyncResponseStatusCode := 10.
Definition AdditionalPeers : GraphSyncResponseStatusCode := 11.
Definition NotEnoughGas : GraphSyncResponseStatusCode := 12.
Definition OtherProtocol : GraphSyncResponseStatusCode := 13.
Definition PartialResponse : GraphSyncResponseStatusCode := 14.
(** Success Response Codes (request terminated) *)
Definition RequestCompletedFull : GraphSyncResponseStatusCode := 20.
Definition RequestCompletedPartial : GraphSyncResponseStatusCode := 21.
(** Error Response Codes (request terminated) *)
Definition RequestRejected : GraphSyncResponseStatusCode := 30.
Definition RequestFailedBusy : GraphSyncResponseStatusCode := 31.
Definition RequestFailedUnknown : GraphSyncResponseStatusCode := 32.
Definition RequestFailedLegal : GraphSyncResponseStatusCode := 33.
Definition RequestFailedContentNotFound : GraphSyncResponseStatusCode := 34.

Definition IsTerminalSuccessCode (status : GraphSyncResponseStatusCode) : bool :=
  (status =? RequestCompletedFull) || (status =? RequestCompletedPartial).

Definition IsTerminalFailureCode (status : GraphSyncResponseStatusCode) : bool :=
  (status =? RequestFailedBusy) ||
  (status =? RequestFailedContentNotFound) ||
  (status =? RequestFailedLegal) ||
  (status =? RequestFailedUnknown).

Definition IsTerminalResponseCode (status : GraphSyncResponseStatusCode) : bool :=
  IsTerminalSuccessCode status || IsTerminalFailureCode status.

Record GraphSyncRequest := mkRequest {
  selector : bytes;
  priority : GraphSyncPriority;
  id : GraphSyncRequestID;
  isCancel : bool
}.

Record GraphSyncResponse := mkResponse {
  requestID : GraphSyncRequestID;
  status : GraphSyncResponseStatusCode;
  extra : bytes
}.

Definition newRequest (i : GraphSyncRequestID) (sel : bytes)
    (prio : GraphSyncPriority) (cancel : bool) : GraphSyncRequest :=
  {| id := i; selector := sel; priority := prio; isCancel := cancel |}.

Definition NewRequest (i : GraphSyncRequestID) (sel : bytes)
    (prio : GraphSyncPriority) : GraphSyncRequest :=
  newRequest i sel prio false.

Definition CancelRequest (i : GraphSyncRequestID) : GraphSyncRequest :=
  newRequest i [] 0 true.

Definition NewResponse (i : GraphSyncRequestID)
    (st : GraphSyncResponseStatusCode) (ex : bytes) : GraphSyncResponse :=
  {| requestID := i; status := st; extra := ex |}.

(** *** The content-address library (go-cid, go-block-format)

    The message code only calls into it; it is an interface here.
    [cidPrefix c] is [c.Prefix()], [prefixBytes] is [Prefix.Bytes()],
    [PrefixFromBytes] is [cid.PrefixFromBytes] and [prefixSum] is
    [Prefix.Sum]; the last two return an error as [None]. *)
Class CidLib := {
  Cid : Type;
  Prefix : Type;
  Cid_eq_dec :: EqDecision Cid;
  Cid_countable :: Countable Cid;
  cidPrefix : Cid → Prefix;
  prefixBytes : Prefix → bytes;
  PrefixFromBytes : bytes → option Prefix;
  prefixSum : Prefix → bytes → option Cid
}.

(** A [blocks.Block]: [RawData()] and [Cid()] of a basic block. *)
Record Block `{CidLib} := mkBlock {
  RawData : bytes;
  blockCid : Cid
}.

(** [blocks.NewBlockWithCid(data, c)]: stores both, without hashing
    (the debug-only check is off). *)
Definition NewBlockWithCid `{CidLib} (data : bytes) (c : Cid) : option Block :=
  Some {| RawData := data; blockCid := c |}.

Record graphSyncMessage `{CidLib} := mkMessage {
  requests : gmap Z GraphSyncRequest;
  responses : gmap Z GraphSyncResponse;
  blocks : gmap Cid Block
}.

Definition newMsg `{CidLib} : graphSyncMessage :=
  {| requests := ∅; responses := ∅; blocks := ∅ |}.

Definition AddRequest `{CidLib} (gsm : graphSyncMessage) (r : GraphSyncRequest)
    : graphSyncMessage :=
  {| requests := <[id r := r]> (requests gsm);
     responses := responses gsm; blocks := blocks gsm |}.

Definition AddResponse `{CidLib} (gsm : graphSyncMessage) (r : GraphSyncResponse)
    : graphSyncMessage :=
  {| requests := requests gsm;
     responses := <[requestID r := r]> (responses gsm); blocks := blocks gsm |}.

Definition AddBlock `{CidLib} (gsm : graphSyncMessage) (b : Block)
    : graphSyncMessage :=
  {| requests := requests gsm; responses := responses gsm;
     blocks := <[blockCid b := b]> (blocks gsm) |}.

Definition Empty `{CidLib} (gsm : graphSyncMessage) : bool :=
  bool_decide (size (blocks gsm) = 0%nat) &&
  bool_decide (size (requests gsm) = 0%nat) &&
  bool_decide (size (responses gsm) = 0%nat).

(** [Requests()], [Responses()] and [Blocks()] copy the map's values to
    a slice by ranging over the map.  These are one such enumeration;
    [rangeOver] below describes all of them. *)
Definition Requests `{CidLib} (gsm : graphSyncMessage) : list GraphSyncRequest :=
  (map_to_list (requests gsm)).*2.

Definition Responses `{CidLib} (gsm : graphSyncMessage) : list GraphSyncResponse :=
  (map_to_list (responses gsm)).*2.

Definition Blocks `{CidLib} (gsm : graphSyncMessage) : list Block :=
  (map_to_list (blocks gsm)).*2.

(** [for _, v := range m]: the values of [m], each once, in some order. *)
Definition rangeOver `{Countable K} {V} (m : gmap K V) (vs : list V) : Prop :=
  vs ≡ₚ (map_to_list m).*2.

(** *** The generated protobuf structures (message/pb) *)
Module pb.

Record Message_Request := {
  Request_Id : Z;
  Request_Selector : bytes;
  Request_Priority : Z;
  Request_Cancel : bool
}.

Record Message_Response := {
  Response_Id : Z;
  Response_Status : Z;
  Response_Extra : bytes
}.

Record Message_Block := {
  Block_Prefix : bytes;
  Block_Data : bytes
}.

Record Message := {
  Requests : list Message_Request;
  Responses : list Message_Response;
  Data : list Message_Block
}.

End pb.

(** The three loop bodies of [ToProto].  [int32(request.id)] and the
    like convert an [int32]-based type to [int32]: the identity. *)
Definition protoRequest (request : GraphSyncRequest) : pb.Message_Request :=
  {| pb.Request_Id := id request;
     pb.Request_Selector := selector request;
     pb.Request_Priority := priority request;
     pb.Request_Cancel := isCancel request |}.

Definition protoResponse (response : GraphSyncResponse) : pb.Message_Response :=
  {| pb.Response_Id := requestID response;
     pb.Response_Status := status response;
     pb.Response_Extra := extra response |}.

Definition protoBlock `{CidLib} (b : Block) : pb.Message_Block :=
  {| pb.Block_Data := RawData b;
     pb.Block_Prefix := prefixBytes (cidPrefix (blockCid b)) |}.

(** [ToProto] once the three ranges have produced their elements. *)
Definition toProtoOf `{CidLib} (reqs : list GraphSyncRequest)
    (resps : list GraphSyncResponse) (blks : list Block) : pb.Message :=
  {| pb.Requests := protoRequest <$> reqs;
     pb.Responses := protoResponse <$> resps;
     pb.Data := protoBlock <$> blks |}.

Definition ToProto `{CidLib} (gsm : graphSyncMessage) : pb.Message :=
  toProtoOf (Requests gsm) (Responses gsm) (Blocks gsm).

(** Every protobuf message [ToProto] may return, whatever order the
    three ranges take. *)
Definition ToProtoMayReturn `{CidLib} (gsm : graphSyncMessage) (pbm : pb.Message)
    : Prop :=
  ∃ reqs resps blks,
    rangeOver (requests gsm) reqs ∧ rangeOver (responses gsm) resps ∧
    rangeOver (blocks gsm) blks ∧ pbm = toProtoOf reqs resps blks.

(** The block loop of [newMessageFromProto]; an error of the address
    library aborts the decoding. *)
Fixpoint addProtoBlocks `{CidLib} (gsm : graphSyncMessage)
    (data : list pb.Message_Block) : option graphSyncMessage :=
  match data with
  | [] => Some gsm
  | b :: rest =>
      pref ← PrefixFromBytes (pb.Block_Prefix b);
      c ← prefixSum pref (pb.Block_Data b);
      blk ← NewBlockWithCid (pb.Block_Data b) c;
      addProtoBlocks (AddBlock gsm blk) rest
  end.

Definition newMessageFromProto `{CidLib} (pbm : pb.Message)
    : option graphSyncMessage :=
  let gsm := newMsg in
  let gsm := foldl (λ g req,
               AddRequest g (newRequest (pb.Request_Id req) (pb.Request_Selector req)
                               (pb.Request_Priority req) (pb.Request_Cancel req)))
             gsm (pb.Requests pbm) in
  let gsm := foldl (λ g res,
               AddResponse g (NewResponse (pb.Response_Id res) (pb.Response_Status res)
                                (pb.Response_Extra res)))
             gsm (pb.Responses pbm) in
  addProtoBlocks gsm (pb.Data pbm).

(** Messages are only built by [newMsg] and the three [Add] methods, so
    every entry sits under its own key. *)
Definition keyed `{CidLib} (gsm : graphSyncMessage) : Prop :=
  (∀ k r, requests gsm !! k = Some r → id r = k) ∧
  (∀ k r, responses gsm !! k = Some r → requestID r = k) ∧
  (∀ k b, blocks gsm !! k = Some b → blockCid b = k).

(** A block carries the address its prefix and data hash to. *)
Definition blockAddressed `{CidLib} (b : Block) : Prop :=
  prefixSum (cidPrefix (blockCid b)) (RawData b) = Some (blockCid b).

(** What the message code relies on from go-cid: a prefix survives its
    byte encoding. *)
Definition prefixCodec `{CidLib} : Prop :=
  ∀ pref, PrefixFromBytes (prefixBytes pref) = Some pref.

(** An instance of the address interface: the prefix is its own byte
    encoding and the hash is the identity multihash, whose digest is
    the data itself. *)
Record idCid := mkIdCid { idPrefix : bytes; idDigest : bytes }.

#[global] Instance idCid_eq_dec : EqDecision idCid.
Proof. solve_decision. Defined.

#[global] Instance idCid_countable : Countable idCid :=
  inj_countable' (λ c, (idPrefix c, idDigest c)) (λ '(p, d), mkIdCid p d)
    (λ c, match c with mkIdCid _ _ => eq_refl end).

Definition identityCids : CidLib :=
  {| Cid := idCid; Prefix := bytes;
     cidPrefix := idPrefix; prefixBytes := λ p, p;
     PrefixFromBytes := λ bs, Some bs;
     prefixSum := λ p data, Some (mkIdCid p data) |}.

(** Two messages over [identityCids].  The block of the first carries
    the address of its data; the block of the second was made by
    [NewBlockWithCid] with the address of other data. *)
Definition sampleMessage : @graphSyncMessage identityCids :=
  AddBlock
    (AddResponse
       (AddRequest (AddRequest newMsg (NewRequest 7 [x01; x02] 3)) (CancelRequest 5))
       (NewResponse 7 RequestCompletedFull [x0a]))
    (@mkBlock identityCids [x61; x62] (mkIdCid [x01; x55] [x61; x62])).

Definition misaddressedMessage : @graphSyncMessage identityCids :=
  AddBlock newMsg
    (@mkBlock identityCids [x61] (mkIdCid [x01; x55] [x62])).

(** A caller's script for the three builder methods, and the message
    it builds from [newMsg]. *)
Inductive Adding `{CidLib} :=
| AddingRequest (r : GraphSyncRequest)
| AddingResponse (r : GraphSyncResponse)
| AddingBlock (b : Block).

Definition adding `{CidLib} (gsm : graphSyncMessage) (a : Adding)
    : graphSyncMessage :=
  match a with
  | AddingRequest r => AddRequest gsm r
  | AddingResponse r => AddResponse gsm r
  | AddingBlock b => AddBlock gsm b
  end.

Definition built `{CidLib} (script : list Adding) : graphSyncMessage :=
  foldl adding newMsg script.

(** The two conversions [newMessageFromProto] applies to the request
    and response records it reads. *)
Definition requestFromProto (req : pb.Message_Request) : GraphSyncRequest :=
  newRequest (pb.Request_Id req) (pb.Request_Selector req)
    (pb.Request_Priority req) (pb.Request_Cancel req).

Definition responseFromProto (res : pb.Message_Response) : GraphSyncResponse :=
  NewResponse (pb.Response_Id res) (pb.Response_Status res) (pb.Response_Extra res).

(** A block record the address library accepts: its prefix parses and
    sums with its data to an address. *)
Definition blockDecodable `{CidLib} (b : pb.Message_Block) : Prop :=
  ∃ pref c, PrefixFromBytes (pb.Block_Prefix b) = Some pref ∧
            prefixSum pref (pb.Block_Data b) = Some c.

(** A protobuf message as a peer may send it: request 7 twice, and one
    block. *)
Definition repeatedProto : pb.Message :=
  {| pb.Requests :=
       [{| pb.Request_Id := 7; pb.Request_Selector := [x01];
           pb.Request_Priority := 1; pb.Request_Cancel := false |};
        {| pb.Request_Id := 7; pb.Request_Selector := [];
           pb.Request_Priority := 0; pb.Request_Cancel := true |}];
     pb.Responses := [];
     pb.Data := [{| pb.Block_Prefix := [x01; x55]; pb.Block_Data := [x61] |}] |}.

(** What [newMessageFromProto] makes of [repeatedProto] over
    [identityCids]. *)
Definition repeatedDecoded : @graphSyncMessage identityCids :=
  AddBlock
    (AddRequest (AddRequest newMsg (NewRequest 7 [x01] 1)) (CancelRequest 7))
    (@mkBlock identityCids [x61] (mkIdCid [x01; x55] [x61])).

End Message.

(** * peermanager/peermanager.go *)
Module PeerManager.

(** A [PeerProcess] is an object with [Startup] and [Shutdown]; the
    model names the object. *)
Definition PeerProcess := nat.

(** [PeerProcessFactory], supplied by the caller of [New].  A Go
    function need not answer the same each time it is called (a factory
    usually allocates), so the model hands it, beside the peer, the
    peers it was called for before. *)
Definition PeerProcessFactory := list peerID → peerID → PeerProcess.

Record peerProcessInstance := mkInstance {
  refcnt : Z;
  process : PeerProcess
}.

(** The map holds pointers to instances: an update of an instance
    reached through the map is an update of the map's entry.
    [factoryCalls] is the state of the factory, not of the manager: the
    peers [createPeerProcess] was called for so far. *)
Record PeerManager := mkPeerManager {
  peerProcesses : gmap peerID peerProcessInstance;
  createPeerProcess : PeerProcessFactory;
  factoryCalls : list peerID
}.

(** Calls on a worker, in the order they are made. *)
Inductive Effect :=
| Startup (pq : PeerProcess)
| Shutdown (pq : PeerProcess).

#[global] Instance Effect_eq_dec : EqDecision Effect.
Proof. solve_decision. Defined.

Definition New (createPeerQueue : PeerProcessFactory) : PeerManager :=
  {| peerProcesses := ∅; createPeerProcess := createPeerQueue;
     factoryCalls := [] |}.

Definition ConnectedPeers (pm : PeerManager) : list peerID :=
  (map_to_list (peerProcesses pm)).*1.

Definition getOrCreate (pm : PeerManager) (p : peerID)
    : peerProcessInstance * PeerManager * list Effect :=
  match peerProcesses pm !! p with
  | Some pqi => (pqi, pm, [])
  | None =>
      let pq := createPeerProcess pm (factoryCalls pm) p in
      let pqi := {| refcnt := 0; process := pq |} in
      (pqi,
       {| peerProcesses := <[p := pqi]> (peerProcesses pm);
          createPeerProcess := createPeerProcess pm;
          factoryCalls := factoryCalls pm ++ [p] |},
       [Startup pq])
  end.

Definition Connected (pm : PeerManager) (p : peerID) : PeerManager * list Effect :=
  let '(pq, pm, effs) := getOrCreate pm p in
  ({| peerProcesses :=
        <[p := {| refcnt := wrapInt (refcnt pq + 1); process := process pq |}]>
          (peerProcesses pm);
      createPeerProcess := createPeerProcess pm;
      factoryCalls := factoryCalls pm |},
   effs).

Definition Disconnected (pm : PeerManager) (p : peerID) : PeerManager * list Effect :=
  match peerProcesses pm !! p with
  | None => (pm, [])
  | Some pq =>
      let pq := {| refcnt := wrapInt (refcnt pq - 1); process := process pq |} in
      if 0 <? refcnt pq then
        ({| peerProcesses := <[p := pq]> (peerProcesses pm);
            createPeerProcess := createPeerProcess pm;
            factoryCalls := factoryCalls pm |}, [])
      else
        ({| peerProcesses := delete p (peerProcesses pm);
            createPeerProcess := createPeerProcess pm;
            factoryCalls := factoryCalls pm |},
         [Shutdown (process pq)])
  end.

Definition GetProcess (pm : PeerManager) (p : peerID)
    : PeerProcess * PeerManager * list Effect :=
  let '(pqi, pm, effs) := getOrCreate pm p in
  (process pqi, pm, effs).

(** The public methods, as a caller's script. *)
Inductive Call :=
| CallConnected (p : peerID)
| CallDisconnected (p : peerID)
| CallConnectedPeers
| CallGetProcess (p : peerID).

Definition call (pm : PeerManager) (c : Call) : PeerManager * list Effect :=
  match c with
  | CallConnected p => Connected pm p
  | CallDisconnected p => Disconnected pm p
  | CallConnectedPeers => let _ := ConnectedPeers pm in (pm, [])
  | CallGetProcess p => let '(_, pm, effs) := GetProcess pm p in (pm, effs)
  end.

(** A script run from a given manager: the manager it leaves and all
    worker calls made on the way. *)
Fixpoint calls (pm : PeerManager) (cs : list Call) : PeerManager * list Effect :=
  match cs with
  | [] => (pm, [])
  | c :: cs =>
      let '(pm1, e1) := call pm c in
      let '(pm2, e2) := calls pm1 cs in
      (pm2, e1 ++ e2)
  end.

Definition shutdowns (pq : PeerProcess) (effs : list Effect) : nat :=
  length (filter (λ e, e = Shutdown pq) effs).

Definition startups (pq : PeerProcess) (effs : list Effect) : nat :=
  length (filter (λ e, e = Startup pq) effs).

(** The peer a call is about. *)
Definition target (c : Call) : option peerID :=
  match c with
  | CallConnected p | CallDisconnected p | CallGetProcess p => Some p
  | CallConnectedPeers => None
  end.

(** After the script [cs] on a new manager, the instance of [p] is one
    that a [GetProcess] made (the peer was not mapped then), and since
    then [p] was neither connected nor disconnected. *)
Definition madeByGetProcess (factory : PeerProcessFactory) (cs : list Call)
    (p : peerID) : Prop :=
  ∃ cs1 cs2,
    cs = cs1 ++ CallGetProcess p :: cs2 ∧
    peerProcesses (calls (New factory) cs1).1 !! p = None ∧
    Forall (λ c, c ≠ CallConnected p ∧ c ≠ CallDisconnected p) cs2.

(** What one [Disconnected p] does to a manager: nothing for an
    unknown peer; a decrement that stays positive keeps the entry and
    calls no one; a decrement to zero or below removes the entry and
    calls [Shutdown] once, on the entry's worker. *)
Definition DisconnectedReleases (pm : PeerManager) (p : peerID) : Prop :=
  (peerProcesses pm !! p = None → Disconnected pm p = (pm, [])) ∧
  (∀ pqi, peerProcesses pm !! p = Some pqi → refcnt pqi - 1 ≤ 0 →
     peerProcesses (Disconnected pm p).1 = delete p (peerProcesses pm) ∧
     (Disconnected pm p).2 = [Shutdown (process pqi)]) ∧
  (∀ pqi, peerProcesses pm !! p = Some pqi → 0 < refcnt pqi - 1 →
     peerProcesses (Disconnected pm p).1 =
       <[p := {| refcnt := refcnt pqi - 1; process := process pqi |}]>
         (peerProcesses pm) ∧
     (Disconnected pm p).2 = []).

(** The worker of every mapped peer. *)
Definition workers (pm : PeerManager) : gmap peerID PeerProcess :=
  process <$> peerProcesses pm.

(** The worker [pq] is the process of some mapped instance. *)
Definition mapped (pm : PeerManager) (pq : PeerProcess) : Prop :=
  ∃ p, workers pm !! p = Some pq.

(** The workers a factory has returned on the calls [h], which come
    after the calls [before]. *)
Fixpoint workersMadeFrom (factory : PeerProcessFactory) (before h : list peerID)
    : list PeerProcess :=
  match h with
  | [] => []
  | p :: h => factory before p :: workersMadeFrom factory (before ++ [p]) h
  end.

Definition workersMade (pm : PeerManager) : list PeerProcess :=
  workersMadeFrom (createPeerProcess pm) [] (factoryCalls pm).

(** A factory that returns a new worker on every call: two calls
    that return the same worker are the same call. *)
Definition freshFactory (factory : PeerProcessFactory) : Prop :=
  ∀ h1 p1 h2 p2, factory h1 p1 = factory h2 p2 → length h1 = length h2.

(** The factory that numbers its workers. *)
Definition countingFactory : PeerProcessFactory := λ h _, length h.

(** A factory that hands the same worker to everyone. *)
Definition sharingFactory : PeerProcessFactory := λ _ _, 0%nat.

(** The life of the workers, read off a manager and the worker calls
    made so far: every worker the factory made was started once and no
    other was; none was shut down twice; a [Shutdown] comes after the
    [Startup] of the same worker; the mapped workers are those made
    and not shut down; and no two peers share a worker. *)
Definition lifecycle (pm : PeerManager) (log : list Effect) : Prop :=
  (∀ pq, startups pq log =
         if decide (pq ∈ workersMade pm) then 1%nat else 0%nat) ∧
  (∀ pq, (shutdowns pq log ≤ 1)%nat) ∧
  (∀ j pq, log !! j = Some (Shutdown pq) →
           ∃ i, (i < j)%nat ∧ log !! i = Some (Startup pq)) ∧
  (∀ pq, mapped pm pq ↔ pq ∈ workersMade pm ∧ shutdowns pq log = 0%nat) ∧
  (∀ p q pq, workers pm !! p = Some pq → workers pm !! q = Some pq → p = q).

End PeerManager.

(** * The request manager (package requestmanager) *)
Module RequestManager.
Import Message.

(** [maxPriority = gsmsg.GraphSyncPriority(math.MaxInt32)] *)
Definition maxPriority : GraphSyncPriority := MaxInt32.

(** ** Channels, as far as the manager uses them

    A channel is its buffer, its capacity and whether it was closed.
    An operation that cannot proceed on its own (a send with no room, a
    receive from an open empty channel) or that panics (on a closed
    channel) is [None]. *)
Record chan (A : Type) := mkChan {
  buffer : list A;
  capacity : nat;
  closed : bool
}.
Arguments mkChan {A}.
Arguments buffer {A}.
Arguments capacity {A}.
Arguments closed {A}.

Definition make {A} (n : nat) : chan A :=
  {| buffer := []; capacity := n; closed := false |}.

Definition send {A} (c : chan A) (x : A) : option (chan A) :=
  if closed c then None
  else if (length (buffer c) <? capacity c)%nat
       then Some {| buffer := buffer c ++ [x]; capacity := capacity c;
                    closed := false |}
       else None.

Definition close {A} (c : chan A) : option (chan A) :=
  if closed c then None
  else Some {| buffer := buffer c; capacity := capacity c; closed := true |}.

(** [v, ok := <-c]: a buffered value, or [ok = false] from a closed and
    drained channel. *)
Definition recv {A} (c : chan A) : option (option A * chan A) :=
  match buffer c with
  | x :: rest =>
      Some (Some x, {| buffer := rest; capacity := capacity c; closed := closed c |})
  | [] => if closed c then Some (None, c) else None
  end.

(** ** Collaborators

    The bridge to the selector library ([ipldbridge.IPLDBridge]), the
    metadata decoder of the manager's helper [metadataForResponses], and
    the types they and the loader exchange.  An [(x, err)] result is
    [inl x] or [inr err]. *)
Class Collaborators := {
  Node : Type;
  Selector : Type;
  Metadata : Type;
  BlockT : Type;
  ResponseProgress : Type;
  ValidateSelectorSpec : Node → list string;
  EncodeNode : Node → bytes + string;
  DecodeSelectorSpec : Node → (Node * Selector) + string;
  metadataForResponses : list GraphSyncResponse → gmap Z Metadata
}.

(** The context, its [cancelFn] and the [networkError] channel of an
    entry are made together by [setupRequest]; [made] names the three
    by the request they were made for. *)
Record inProgressRequestStatus := mkStatus {
  made : GraphSyncRequestID;
  p : peerID
}.

Record RequestManager := mkRequestManager {
  nextRequestID : GraphSyncRequestID;
  inProgressRequestStatuses : gmap Z inProgressRequestStatus
}.

Definition New : RequestManager :=
  {| nextRequestID := 0; inProgressRequestStatuses := ∅ |}.

Record inProgressRequest `{Collaborators} := mkInProgressRequest {
  inProgressID : GraphSyncRequestID;
  incoming : chan ResponseProgress;
  incomingError : chan string
}.

(** What the event loop does besides computing: calls on the peer
    handler and the async loader, writes to the map of in-progress
    requests, and operations on a request's context and channels, in
    program order. *)
Inductive Action `{Collaborators} :=
| PeerHandlerSendRequest (to : peerID) (r : GraphSyncRequest)
| StartRequest (i : GraphSyncRequestID)
| ProcessResponse (md : gmap Z Metadata) (blks : list BlockT)
| CompleteResponsesFor (i : GraphSyncRequestID)
| CleanupRequest (i : GraphSyncRequestID)
| StoreStatus (i : GraphSyncRequestID) (st : inProgressRequestStatus)
| DeleteStatus (i : GraphSyncRequestID)
| PublishNetworkError (st : inProgressRequestStatus) (err : string)
| CancelFn (st : inProgressRequestStatus)
| GoTraverse (i : GraphSyncRequestID) (root : Node) (sel : Selector)
| ReplyInProgress (r : inProgressRequest).

(** ** The event loop's monad: state, a log of actions, and a halt

    A computation returns the actions performed, the manager it leaves,
    and a value, unless the goroutine halted on the way: on a nil
    pointer dereference (a panic) or on a channel operation that
    cannot proceed. *)
Inductive Halt := NilDereference | ChannelStuck.

Inductive Outcome (A : Type) :=
| Value (a : A)
| Halted (h : Halt).
Arguments Value {A}.
Arguments Halted {A}.

Definition M `{Collaborators} (A : Type) : Type :=
  RequestManager → list Action * RequestManager * Outcome A.

Definition ret `{Collaborators} {A} (a : A) : M A := λ rm, ([], rm, Value a).

Definition bind `{Collaborators} {A B} (m : M A) (k : A → M B) : M B :=
  λ rm,
    match m rm with
    | (t1, rm1, Halted h) => (t1, rm1, Halted h)
    | (t1, rm1, Value a) =>
        match k a rm1 with
        | (t2, rm2, b) => (t1 ++ t2, rm2, b)
        end
    end.

Definition act `{Collaborators} (a : Action) : M unit := λ rm, ([a], rm, Value tt).

Definition halt `{Collaborators} {A} (h : Halt) : M A := λ rm, ([], rm, Halted h).

Definition lookupStatus `{Collaborators} (i : GraphSyncRequestID)
    : M (option inProgressRequestStatus) :=
  λ rm, ([], rm, Value (inProgressRequestStatuses rm !! i)).

Definition storeStatus `{Collaborators} (i : GraphSyncRequestID)
    (st : inProgressRequestStatus) : M unit :=
  λ rm, ([StoreStatus i st],
         {| nextRequestID := nextRequestID rm;
            inProgressRequestStatuses := <[i := st]> (inProgressRequestStatuses rm) |},
         Value tt).

(** [delete(rm.inProgressRequestStatuses, i)] *)
Definition withoutStatus (i : GraphSyncRequestID) (rm : RequestManager)
    : RequestManager :=
  {| nextRequestID := nextRequestID rm;
     inProgressRequestStatuses := delete i (inProgressRequestStatuses rm) |}.

Definition deleteStatus `{Collaborators} (i : GraphSyncRequestID) : M unit :=
  λ rm, ([DeleteStatus i], withoutStatus i rm, Value tt).

(** [requestID := rm.nextRequestID; rm.nextRequestID++] *)
Definition takeRequestID `{Collaborators} : M GraphSyncRequestID :=
  λ rm, ([],
         {| nextRequestID := wrap32 (nextRequestID rm + 1);
            inProgressRequestStatuses := inProgressRequestStatuses rm |},
         Value (nextRequestID rm)).

#[global] Instance M_ret `{Collaborators} : MRet M := @ret _.
#[global] Instance M_bind `{Collaborators} : MBind M := λ A B k m, bind m k.

Definition getManager `{Collaborators} : M RequestManager :=
  λ rm, ([], rm, Value rm).

(** ** The caller's side *)

Definition emptyResponse `{Collaborators}
    : option (chan ResponseProgress * chan string) :=
  ch ← close (make 0);
  errCh ← close (make 0);
  Some (ch, errCh).

Definition singleErrorResponse `{Collaborators} (err : string)
    : option (chan ResponseProgress * chan string) :=
  ch ← close (make 0);
  errCh ← send (make 1) err;
  errCh ← close errCh;
  Some (ch, errCh).

Inductive requestManagerMessage `{Collaborators} :=
| newRequestMessage (to : peerID) (selector : Node)
| cancelRequestMessage (i : GraphSyncRequestID)
| processResponseMessage (from : peerID) (responses : list GraphSyncResponse)
    (blks : list BlockT)
| terminateRequestMessage (i : GraphSyncRequestID).

(** The case the first [select] of [SendRequest] takes. *)
Inductive SelectCase := MessageSent | ManagerDone | CallerDone.

(** [SendRequest] up to the point where it waits for the event loop:
    either it has returned its two streams, or it has posted its
    message and waits for the in-progress request.  [posted] lists
    what it put on [rm.messages]. *)
Inductive SendRequestOutcome `{Collaborators} :=
| Returned (posted : list requestManagerMessage)
    (progress : chan ResponseProgress) (errors : chan string)
| Waiting (posted : list requestManagerMessage).

Definition SendRequest `{Collaborators} (taken : SelectCase) (to : peerID)
    (cidRootedSelector : Node) : option SendRequestOutcome :=
  if negb (length (ValidateSelectorSpec cidRootedSelector) =? 0)%nat then
    '(ch, errCh) ← singleErrorResponse "Invalid Selector Spec";
    Some (Returned [] ch errCh)
  else
    match taken with
    | MessageSent => Some (Waiting [newRequestMessage to cidRootedSelector])
    | ManagerDone | CallerDone =>
        '(ch, errCh) ← emptyResponse;
        Some (Returned [] ch errCh)
    end.

(** ** The handlers of the event loop *)

Definition generateResponseErrorFromStatus (status : GraphSyncResponseStatusCode)
    : string :=
  if status =? RequestFailedBusy then "Request Failed - Peer Is Busy"
  else if status =? RequestFailedContentNotFound then "Request Failed - Content Not Found"
  else if status =? RequestFailedLegal then "Request Failed - For Legal Reasons"
  else if status =? RequestFailedUnknown then "Request Failed - Unknown Reason"
  else "Unknown".

(** The goroutine it starts is one action; the two channels it returns
    are new and open. *)
Definition executeTraversal `{Collaborators} (i : GraphSyncRequestID)
    (root : Node) (sel : Selector) : M (chan ResponseProgress * chan string) :=
  act (GoTraverse i root sel);;
  mret (make 0, make 0).

Definition liftChans `{Collaborators}
    (r : option (chan ResponseProgress * chan string))
    : M (chan ResponseProgress * chan string) :=
  match r with
  | Some chans => mret chans
  | None => halt ChannelStuck
  end.

Definition setupRequest `{Collaborators} (i : GraphSyncRequestID) (to : peerID)
    (selectorSpec : Node) : M (chan ResponseProgress * chan string) :=
  match EncodeNode selectorSpec with
  | inr err => liftChans (singleErrorResponse err)
  | inl selectorBytes =>
      match DecodeSelectorSpec selectorSpec with
      | inr err => liftChans (singleErrorResponse err)
      | inl (root, sel) =>
          storeStatus i {| made := i; p := to |};;
          act (StartRequest i);;
          act (PeerHandlerSendRequest to (NewRequest i selectorBytes maxPriority));;
          executeTraversal i root sel
      end
  end.

Definition handleNewRequest `{Collaborators} (to : peerID) (selector : Node)
    : M unit :=
  i ← takeRequestID;
  '(inProgressChan, inProgressErr) ← setupRequest i to selector;
  act (ReplyInProgress {| inProgressID := i; incoming := inProgressChan;
                          incomingError := inProgressErr |}).

Definition handleTerminateRequest `{Collaborators} (i : GraphSyncRequestID)
    : M unit :=
  deleteStatus i;;
  act (CleanupRequest i).

Definition handleCancelRequest `{Collaborators} (i : GraphSyncRequestID)
    : M unit :=
  found ← lookupStatus i;
  match found with
  | None => mret tt
  | Some inProgressRequestStatus =>
      act (PeerHandlerSendRequest (p inProgressRequestStatus) (CancelRequest i));;
      deleteStatus i;;
      act (CancelFn inProgressRequestStatus)
  end.

Fixpoint filterResponsesForPeer (rm : RequestManager)
    (responses : list GraphSyncResponse) (from : peerID)
    : list GraphSyncResponse :=
  match responses with
  | [] => []
  | response :: rest =>
      match inProgressRequestStatuses rm !! requestID response with
      | None => filterResponsesForPeer rm rest from
      | Some requestStatus =>
          if decide (p requestStatus ≠ from)
          then filterResponsesForPeer rm rest from
          else response :: filterResponsesForPeer rm rest from
      end
  end.

(** The body of the loop of [processTerminations].
    [rm.inProgressRequestStatuses[id]] of an absent id is a nil
    pointer; reading its [networkError] field is where the goroutine
    stops. *)
Definition processTermination `{Collaborators} (response : GraphSyncResponse)
    : M unit :=
  if IsTerminalResponseCode (status response) then
    (if IsTerminalFailureCode (status response) then
       requestStatus ← lookupStatus (requestID response);
       let responseError := generateResponseErrorFromStatus (status response) in
       match requestStatus with
       | None => halt NilDereference
       | Some requestStatus =>
           act (PublishNetworkError requestStatus responseError);;
           act (CancelFn requestStatus)
       end
     else mret tt);;
    act (CompleteResponsesFor (requestID response));;
    deleteStatus (requestID response)
  else mret tt.

Fixpoint processTerminations `{Collaborators} (responses : list GraphSyncResponse)
    : M unit :=
  match responses with
  | [] => mret tt
  | response :: rest =>
      processTermination response;;
      processTerminations rest
  end.

Definition handleProcessResponse `{Collaborators} (from : peerID)
    (responses : list GraphSyncResponse) (blks : list BlockT) : M unit :=
  rm ← getManager;
  let filteredResponses := filterResponsesForPeer rm responses from in
  let responseMetadata := metadataForResponses filteredResponses in
  act (ProcessResponse responseMetadata blks);;
  processTerminations filteredResponses.

Definition handle `{Collaborators} (message : requestManagerMessage) : M unit :=
  match message with
  | newRequestMessage to selector => handleNewRequest to selector
  | cancelRequestMessage i => handleCancelRequest i
  | processResponseMessage from responses blks =>
      handleProcessResponse from responses blks
  | terminateRequestMessage i => handleTerminateRequest i
  end.

(** [run] on the messages the loop receives before its context ends. *)
Fixpoint run `{Collaborators} (messages : list requestManagerMessage) : M unit :=
  match messages with
  | [] => mret tt
  | message :: rest => handle message;; run rest
  end.

(** The ids the loop gave out, read off the replies to the callers. *)
Definition assignedIDs `{Collaborators} (log : list Action)
    : list GraphSyncRequestID :=
  omap (λ a, match a with
             | ReplyInProgress r => Some (inProgressID r)
             | _ => None
             end) log.

Definition isNewRequest `{Collaborators} (message : requestManagerMessage) : bool :=
  match message with newRequestMessage _ _ => true | _ => false end.

(** A list of ids in which every id is smaller than all later ones. *)
Definition strictlyIncreasing (ids : list GraphSyncRequestID) : Prop :=
  ∀ (i j : nat) (a b : Z),
    ids !! i = Some a → ids !! j = Some b → (i < j)%nat → a < b.

(** The parts of what a computation returns. *)
Definition logOf `{Collaborators} {A}
    (r : list Action * RequestManager * Outcome A) : list Action := r.1.1.
Definition managerOf `{Collaborators} {A}
    (r : list Action * RequestManager * Outcome A) : RequestManager := r.1.2.
Definition outcomeOf `{Collaborators} {A}
    (r : list Action * RequestManager * Outcome A) : Outcome A := r.2.

Definition isProcessResponse `{Collaborators} (a : Action) : bool :=
  match a with ProcessResponse _ _ => true | _ => false end.

Definition isCompleteResponsesFor `{Collaborators} (a : Action) : bool :=
  match a with CompleteResponsesFor _ => true | _ => false end.

(** A small instance of the collaborators: nodes are byte strings, a
    node is a valid selector spec when it is not empty, and the
    metadata of a response is its [extra] bytes. *)
Definition bytesCollaborators : Collaborators :=
  {| Node := bytes; Selector := bytes; Metadata := bytes; BlockT := bytes;
     ResponseProgress := bytes;
     ValidateSelectorSpec := λ n,
       match n with [] => ["empty selector spec"] | _ => [] end;
     EncodeNode := λ n, inl n;
     DecodeSelectorSpec := λ n, inl (n, n);
     metadataForResponses := λ rs,
       list_to_map ((λ r, (requestID r, extra r)) <$> rs) |}.

(** How many of the messages ask for a new request. *)
Definition newRequests `{Collaborators} (messages : list requestManagerMessage)
    : nat :=
  length (filter (λ m, isNewRequest m = true) messages).

(** [k] successive values of the counter [rm.nextRequestID], from [n]. *)
Fixpoint countUp (n : GraphSyncRequestID) (k : nat) : list GraphSyncRequestID :=
  match k with
  | O => []
  | S k => n :: countUp (wrap32 (n + 1)) k
  end.

(** Three requests with a cancel and a batch of responses between
    them. *)
Definition threeRequests : list (@requestManagerMessage bytesCollaborators) :=
  [@newRequestMessage bytesCollaborators "alice" [x01];
   @newRequestMessage bytesCollaborators "bob" [x02];
   @cancelRequestMessage bytesCollaborators 0;
   @processResponseMessage bytesCollaborators "bob"
     [NewResponse 1 RequestFailedLegal []] [];
   @newRequestMessage bytesCollaborators "alice" []].

(** The manager after one request to peer "alice" (it got id 0), and
    two batches of responses from the network. *)
Definition oneRequest : RequestManager :=
  managerOf
    (@run bytesCollaborators
       [@newRequestMessage bytesCollaborators "alice" [x01]] New).

Definition mixedBatch : list GraphSyncResponse :=
  [NewResponse 0 PartialResponse [x0a]; NewResponse 9 RequestCompletedFull []].

Definition completedBatch : list GraphSyncResponse :=
  [NewResponse 0 RequestCompletedFull []].

Definition oneBlock : list (@BlockT bytesCollaborators) := [[x61]].

Definition twiceFailedBatch : list GraphSyncResponse :=
  [NewResponse 0 RequestFailedBusy []; NewResponse 0 RequestFailedBusy []].

(** Two different terminal failures for request 0 in one batch. *)
Definition busyThenLegalBatch : list GraphSyncResponse :=
  [NewResponse 0 RequestFailedBusy []; NewResponse 0 RequestFailedLegal []].

(** Readings of a log: the requests completed at the loader, the
    frames handed to the peer handler, and the errors published to
    callers. *)
Definition completedIDs `{Collaborators} (log : list Action)
    : list GraphSyncRequestID :=
  omap (λ a, match a with CompleteResponsesFor i => Some i | _ => None end) log.

Definition sentFrames `{Collaborators} (log : list Action)
    : list (peerID * GraphSyncRequest) :=
  omap (λ a, match a with
             | PeerHandlerSendRequest to r => Some (to, r)
             | _ => None
             end) log.

Definition publishedErrors `{Collaborators} (log : list Action)
    : list (inProgressRequestStatus * string) :=
  omap (λ a, match a with
             | PublishNetworkError st err => Some (st, err)
             | _ => None
             end) log.

(** The responses of a batch that end their request. *)
Definition terminal (responses : list GraphSyncResponse) : list GraphSyncResponse :=
  filter (λ r, IsTerminalResponseCode (status r) = true) responses.

Definition failed (responses : list GraphSyncResponse) : list GraphSyncResponse :=
  filter (λ r, IsTerminalFailureCode (status r) = true) responses.

(** The four errors a failure status is mapped to. *)
Definition failureErrors : list string :=
  ["Request Failed - Peer Is Busy"; "Request Failed - Content Not Found";
   "Request Failed - For Legal Reasons"; "Request Failed - Unknown Reason"].

(** A closed channel with nothing buffered. *)
Definition closedEmpty {A} : chan A :=
  {| buffer := []; capacity := 0; closed := true |}.

(** A second instance of the collaborators, whose bridge validates
    every node but cannot encode the empty node and finds no selector
    spec in a node of one byte. *)
Definition pickyCollaborators : Collaborators :=
  {| Node := bytes; Selector := bytes; Metadata := bytes; BlockT := bytes;
     ResponseProgress := bytes;
     ValidateSelectorSpec := λ _, [];
     EncodeNode := λ n,
       match n with [] => inr "cannot encode an empty node" | _ => inl n end;
     DecodeSelectorSpec := λ n,
       match n with [_] => inr "not a selector spec" | _ => inl (n, n) end;
     metadataForResponses := λ rs,
       list_to_map ((λ r, (requestID r, extra r)) <$> rs) |}.

End RequestManager.

(** * Properties *)

(** ** Status codes *)
Section StatusCodes.
Import Message.

Lemma IsTerminalSuccessCode_iff (s : GraphSyncResponseStatusCode) :
  IsTerminalSuccessCode s = true ↔ s = 20 ∨ s = 21.
Proof.
  unfold IsTerminalSuccessCode, RequestCompletedFull, RequestCompletedPartial.
  rewrite orb_true_iff, !Z.eqb_eq. tauto.
Qed.

Lemma IsTerminalFailureCode_iff (s : GraphSyncResponseStatusCode) :
  IsTerminalFailureCode s = true ↔ 31 ≤ s ≤ 34.
Proof.
  unfold IsTerminalFailureCode, RequestFailedBusy, RequestFailedContentNotFound,
    RequestFailedLegal, RequestFailedUnknown.
  rewrite !orb_true_iff, !Z.eqb_eq. lia.
Qed.

Lemma IsTerminalResponseCode_iff (s : GraphSyncResponseStatusCode) :
  IsTerminalResponseCode s = true ↔ s = 20 ∨ s = 21 ∨ 31 ≤ s ≤ 34.
Proof.
  unfold IsTerminalResponseCode.
  rewrite orb_true_iff, IsTerminalSuccessCode_iff, IsTerminalFailureCode_iff.
  tauto.
Qed.

(** C1.  The code at status 30, [RequestRejected], which the constant
    block lists under "Error Response Codes (request terminated)":
    [IsTerminalFailureCode] answers false, and so does
    [IsTerminalResponseCode], while the four codes 31 to 34 are the
    ones [IsTerminalFailureCode] accepts. *)
Theorem RequestRejected_not_terminal :
  IsTerminalFailureCode RequestRejected = false ∧
  IsTerminalResponseCode RequestRejected = false ∧
  RequestRejected = 30 ∧
  ∀ s, IsTerminalFailureCode s = true ↔ s ∈ [31; 32; 33; 34].
Proof.
  split; [reflexivity|]. split; [reflexivity|]. split; [reflexivity|].
  intros s. rewrite IsTerminalFailureCode_iff, !elem_of_cons, elem_of_nil. lia.
Qed.

End StatusCodes.

(** ** The error of a failure status *)
Section ResponseErrors.
Import Message RequestManager.

(** C2, as the claim has it, fails: an unknown status, here 99, is not
    mapped to "Request Failed - Unknown Reason". *)
Lemma unknown_status_error_differs :
  generateResponseErrorFromStatus 99 ≠ "Request Failed - Unknown Reason".
Proof. vm_compute. discriminate. Qed.

(** C2, amended.  [generateResponseErrorFromStatus] maps 31 to
    "Request Failed - Peer Is Busy", 33 to "Request Failed - For Legal
    Reasons", 34 to "Request Failed - Content Not Found", 32 to
    "Request Failed - Unknown Reason", and every other status code to
    "Unknown". *)
Theorem generateResponseErrorFromStatus_table :
  generateResponseErrorFromStatus 31 = "Request Failed - Peer Is Busy" ∧
  generateResponseErrorFromStatus 33 = "Request Failed - For Legal Reasons" ∧
  generateResponseErrorFromStatus 34 = "Request Failed - Content Not Found" ∧
  generateResponseErrorFromStatus 32 = "Request Failed - Unknown Reason" ∧
  ∀ s, s ∉ [31; 32; 33; 34] → generateResponseErrorFromStatus s = "Unknown".
Proof.
  repeat (split; [reflexivity|]).
  intros s Hs. rewrite !not_elem_of_cons in Hs.
  destruct Hs as (H31 & H32 & H33 & H34 & _).
  unfold generateResponseErrorFromStatus, RequestFailedBusy,
    RequestFailedContentNotFound, RequestFailedLegal, RequestFailedUnknown.
  repeat case_match; try reflexivity; lia.
Qed.

Lemma generateResponseErrorFromStatus_table_witness :
  (99 ∉ [31; 32; 33; 34]) ∧ generateResponseErrorFromStatus 99 = "Unknown".
Proof.
  assert (H : 99 ∉ [31; 32; 33; 34]).
  { rewrite !not_elem_of_cons. repeat split; try lia. apply not_elem_of_nil. }
  split; [exact H|].
  exact (proj2 (proj2 (proj2 (proj2 generateResponseErrorFromStatus_table))) 99 H).
Defined.

End ResponseErrors.

(** ** The peer manager's reference counts *)
Section PeerRefcounts.
Import PeerManager.

Lemma wrapInt_small (z : Z) : - 2 ^ 63 ≤ z < 2 ^ 63 → wrapInt z = z.
Proof.
  intros Hz. unfold wrapInt, wrap.
  change (2 ^ (64 - 1)) with (2 ^ 63). change (2 ^ 64) with (2 * 2 ^ 63).
  rewrite Z.mod_small; lia.
Qed.

Lemma shutdowns_app pq (l1 l2 : list Effect) :
  shutdowns pq (l1 ++ l2) = (shutdowns pq l1 + shutdowns pq l2)%nat.
Proof. unfold shutdowns. by rewrite filter_app, length_app. Qed.

Lemma startups_app pq (l1 l2 : list Effect) :
  startups pq (l1 ++ l2) = (startups pq l1 + startups pq l2)%nat.
Proof. unfold startups. by rewrite filter_app, length_app. Qed.

Lemma startups_one pq (e : Effect) :
  startups pq [e] = if decide (e = Startup pq) then 1%nat else 0%nat.
Proof.
  unfold startups. case_decide.
  - by rewrite filter_cons_True.
  - by rewrite filter_cons_False.
Qed.

Lemma shutdowns_one pq (e : Effect) :
  shutdowns pq [e] = if decide (e = Shutdown pq) then 1%nat else 0%nat.
Proof.
  unfold shutdowns. case_decide.
  - by rewrite filter_cons_True.
  - by rewrite filter_cons_False.
Qed.

Lemma startups_lookup pq (log : list Effect) :
  (0 < startups pq log)%nat → ∃ i, log !! i = Some (Startup pq).
Proof.
  unfold startups. intros Hpos.
  destruct (filter (λ e, e = Startup pq) log) as [|e l] eqn:Hf; [simpl in Hpos; lia|].
  assert (Hin : e ∈ filter (λ e, e = Startup pq) log) by (rewrite Hf; by left).
  apply list_elem_of_filter in Hin as [-> Hin].
  by apply list_elem_of_lookup_1.
Qed.

Lemma calls_app (cs1 cs2 : list Call) : ∀ pm,
  calls pm (cs1 ++ cs2) =
  ((calls (calls pm cs1).1 cs2).1, (calls pm cs1).2 ++ (calls (calls pm cs1).1 cs2).2).
Proof.
  induction cs1 as [|c cs1 IH]; intros pm; simpl.
  - by destruct (calls pm cs2).
  - destruct (call pm c) as [pm1 e1]. rewrite IH.
    destruct (calls pm1 cs1) as [pm2 e2]; simpl.
    destruct (calls pm2 cs2) as [pm3 e3]; simpl. by rewrite app_assoc.
Qed.

Lemma calls_snoc (cs : list Call) (c : Call) (pm : PeerManager) :
  calls pm (cs ++ [c]) =
  ((call (calls pm cs).1 c).1, (calls pm cs).2 ++ (call (calls pm cs).1 c).2).
Proof.
  rewrite calls_app. simpl. destruct (call (calls pm cs).1 c) as [pm1 e1]; simpl.
  by rewrite app_nil_r.
Qed.

(** The instance a call leaves for a peer. *)
Lemma call_lookup (pm : PeerManager) (c : Call) (p : peerID) :
  peerProcesses (call pm c).1 !! p =
  match c with
  | CallConnected q =>
      if decide (q = p) then
        Some match peerProcesses pm !! p with
             | Some pqi => {| refcnt := wrapInt (refcnt pqi + 1);
                              process := process pqi |}
             | None => {| refcnt := wrapInt (0 + 1);
                          process := createPeerProcess pm (factoryCalls pm) p |}
             end
      else peerProcesses pm !! p
  | CallDisconnected q =>
      if decide (q = p) then
        match peerProcesses pm !! p with
        | Some pqi =>
            if 0 <? wrapInt (refcnt pqi - 1)
            then Some {| refcnt := wrapInt (refcnt pqi - 1); process := process pqi |}
            else None
        | None => None
        end
      else peerProcesses pm !! p
  | CallConnectedPeers => peerProcesses pm !! p
  | CallGetProcess q =>
      if decide (q = p) then
        Some match peerProcesses pm !! p with
             | Some pqi => pqi
             | None => {| refcnt := 0;
                          process := createPeerProcess pm (factoryCalls pm) p |}
             end
      else peerProcesses pm !! p
  end.
Proof.
  destruct c as [q|q| |q]; simpl; [| | done |].
  - unfold Connected, getOrCreate. case_decide as Hq.
    + subst q. destruct (peerProcesses pm !! p); simpl; by rewrite lookup_insert_eq.
    + destruct (peerProcesses pm !! q); simpl;
        by rewrite ?lookup_insert_ne by done.
  - unfold Disconnected. case_decide as Hq.
    + subst q. destruct (peerProcesses pm !! p) as [pqi|] eqn:Hp; simpl; [|done].
      destruct (0 <? _); simpl; [apply lookup_insert_eq | apply lookup_delete_eq].
    + destruct (peerProcesses pm !! q); simpl; [|done].
      destruct (0 <? _); simpl;
        [by rewrite lookup_insert_ne | by rewrite lookup_delete_ne].
  - unfold GetProcess, getOrCreate. case_decide as Hq.
    + subst q. destruct (peerProcesses pm !! p) eqn:Hp; simpl;
        [done | apply lookup_insert_eq].
    + destruct (peerProcesses pm !! q); simpl; [done|].
      by rewrite lookup_insert_ne.
Qed.

Lemma snoc_eq_app_cons {A} (l l1 l2 : list A) (x y : A) :
  l ++ [x] = l1 ++ y :: l2 →
  (l2 = [] ∧ l = l1 ∧ x = y) ∨ (∃ l2', l2 = l2' ++ [x] ∧ l = l1 ++ y :: l2').
Proof.
  destruct l2 as [|z l2 _] using rev_ind.
  - intros Heq. apply app_inj_tail in Heq as [-> ->]. by left.
  - intros Heq. right. exists l2.
    replace (l1 ++ y :: l2 ++ [z]) with ((l1 ++ y :: l2) ++ [z]) in Heq
      by (by rewrite <- app_assoc).
    apply app_inj_tail in Heq as [-> ->]. done.
Qed.

Lemma madeByGetProcess_snoc factory cs c p :
  madeByGetProcess factory cs p →
  c ≠ CallConnected p → c ≠ CallDisconnected p →
  madeByGetProcess factory (cs ++ [c]) p.
Proof.
  intros (cs1 & cs2 & -> & Hnone & Hrest) Hc Hd.
  exists cs1, (cs2 ++ [c]). split; [by rewrite <- app_assoc|]. split; [done|].
  apply Forall_app. split; [done|]. by repeat constructor.
Qed.

Lemma madeByGetProcess_here factory cs p :
  peerProcesses (calls (New factory) cs).1 !! p = None →
  madeByGetProcess factory (cs ++ [CallGetProcess p]) p.
Proof. intros Hnone. exists cs, []. repeat split; [done | constructor]. Qed.

Lemma madeByGetProcess_inv factory cs c p :
  madeByGetProcess factory (cs ++ [c]) p →
  (c = CallGetProcess p ∧ peerProcesses (calls (New factory) cs).1 !! p = None) ∨
  (madeByGetProcess factory cs p ∧ c ≠ CallConnected p ∧ c ≠ CallDisconnected p).
Proof.
  intros (cs1 & cs2 & Heq & Hnone & Hrest).
  apply snoc_eq_app_cons in Heq as [(-> & -> & ->) | (cs2' & -> & ->)].
  - by left.
  - right. apply Forall_app in Hrest as [Hrest Hc].
    apply Forall_singleton in Hc as [? ?].
    split; [|done]. by exists cs1, cs2'.
Qed.

(** The counts a script leaves: never negative, at most the number of
    calls, and zero exactly for an instance that [GetProcess] made and
    that was not connected since. *)
Lemma refcounts_invariant (factory : PeerProcessFactory) (cs : list Call) :
  Z.of_nat (length cs) < 2 ^ 63 →
  ∀ p pqi, peerProcesses (calls (New factory) cs).1 !! p = Some pqi →
    0 ≤ refcnt pqi ≤ Z.of_nat (length cs) ∧
    (refcnt pqi = 0 ↔ madeByGetProcess factory cs p).
Proof.
  induction cs as [|c cs IH] using rev_ind; intros Hlen p pqi.
  { simpl. by rewrite lookup_empty. }
  rewrite length_app in Hlen. simpl in Hlen.
  assert (Hlen' : Z.of_nat (length cs) < 2 ^ 63) by lia.
  specialize (IH Hlen' p).
  rewrite calls_snoc, length_app. simpl fst. simpl length.
  rewrite call_lookup.
  assert (Hother : c ≠ CallConnected p → c ≠ CallDisconnected p →
            (c = CallGetProcess p →
             is_Some (peerProcesses (calls (New factory) cs).1 !! p)) →
            peerProcesses (calls (New factory) cs).1 !! p = Some pqi →
            0 ≤ refcnt pqi ≤ Z.of_nat (length cs + 1) ∧
            (refcnt pqi = 0 ↔ madeByGetProcess factory (cs ++ [c]) p)).
  { intros Hc Hd Hg Hp. destruct (IH pqi Hp) as [Hr Hiff]. split; [lia|].
    rewrite Hiff. split.
    - intros Hm. by apply madeByGetProcess_snoc.
    - intros Hm. apply madeByGetProcess_inv in Hm as [[-> Hnone] | [Hm _]]; [|done].
      destruct Hg as [? Hg]; [done|]. congruence. }
  destruct c as [q|q| |q].
  - case_decide as Hq; [subst q|].
    + intros [= <-].
      assert (Hnot : ¬ madeByGetProcess factory (cs ++ [CallConnected p]) p).
      { intros Hm. apply madeByGetProcess_inv in Hm as [[[=] _] | (_ & Hc & _)].
        by apply Hc. }
      destruct (peerProcesses _ !! p) as [old|] eqn:Hold; simpl.
      * destruct (IH old eq_refl) as [Hr _].
        rewrite wrapInt_small by lia. split; [lia|]. split; [lia | done].
      * rewrite wrapInt_small by lia. split; [lia|]. split; [lia | done].
    + apply Hother; [congruence | congruence | discriminate].
  - case_decide as Hq; [subst q|].
    + assert (Hnot : ¬ madeByGetProcess factory (cs ++ [CallDisconnected p]) p).
      { intros Hm. apply madeByGetProcess_inv in Hm as [[[=] _] | (_ & _ & Hd)].
        by apply Hd. }
      destruct (peerProcesses _ !! p) as [old|] eqn:Hold; [|done].
      destruct (IH old eq_refl) as [Hr _].
      rewrite wrapInt_small by lia.
      destruct (0 <? refcnt old - 1) eqn:Hpos; [|done].
      apply Z.ltb_lt in Hpos. intros [= <-]. simpl.
      split; [lia|]. split; [lia | done].
    + apply Hother; [congruence | congruence | discriminate].
  - apply Hother; discriminate.
  - case_decide as Hq; [subst q|].
    + destruct (peerProcesses _ !! p) as [old|] eqn:Hold.
      * intros [= <-]. apply Hother; [discriminate | discriminate | eauto | done].
      * intros [= <-]. simpl. split; [lia|]. split; [|done].
        intros _. by apply madeByGetProcess_here.
    + apply Hother; [discriminate | discriminate | congruence].
Qed.

Lemma refcounts_DisconnectedReleases (pm : PeerManager) (p : peerID) :
  (∀ pqi, peerProcesses pm !! p = Some pqi → 0 ≤ refcnt pqi < 2 ^ 63) →
  DisconnectedReleases pm p.
Proof.
  intros Hr. unfold DisconnectedReleases, Disconnected. split; [|split].
  - by intros ->.
  - intros pqi Hp Hz. rewrite Hp. simpl. specialize (Hr _ Hp).
    rewrite wrapInt_small by lia.
    assert ((0 <? refcnt pqi - 1) = false) as -> by (apply Z.ltb_ge; lia). done.
  - intros pqi Hp Hz. rewrite Hp. simpl. specialize (Hr _ Hp).
    rewrite wrapInt_small by lia.
    assert ((0 <? refcnt pqi - 1) = true) as -> by (apply Z.ltb_lt; lia). done.
Qed.

Lemma workersMadeFrom_snoc factory (h : list peerID) (p : peerID) : ∀ before,
  workersMadeFrom factory before (h ++ [p]) =
  workersMadeFrom factory before h ++ [factory (before ++ h) p].
Proof.
  induction h as [|q h IH]; intros before; simpl.
  - by rewrite app_nil_r.
  - rewrite IH. by rewrite <- app_assoc.
Qed.

Lemma workersMadeFrom_elem factory (h : list peerID) : ∀ before w,
  w ∈ workersMadeFrom factory before h →
  ∃ h1 q, w = factory h1 q ∧
          (length before ≤ length h1 < length before + length h)%nat.
Proof.
  induction h as [|p h IH]; intros before w; simpl.
  - by rewrite elem_of_nil.
  - rewrite elem_of_cons. intros [-> | Hw].
    + exists before, p. split; [done | lia].
    + destruct (IH _ _ Hw) as (h1 & q & -> & Hlen).
      rewrite length_app in Hlen. simpl in Hlen.
      exists h1, q. split; [done | lia].
Qed.

Lemma freshFactory_new_worker factory (h : list peerID) (p : peerID) :
  freshFactory factory → factory h p ∉ workersMadeFrom factory [] h.
Proof.
  intros Hfresh Hin.
  apply workersMadeFrom_elem in Hin as (h1 & q & Heq & Hlen).
  apply Hfresh in Heq. simpl in Hlen. lia.
Qed.

Lemma call_factory (pm : PeerManager) (c : Call) :
  createPeerProcess (call pm c).1 = createPeerProcess pm.
Proof.
  destruct c as [p|p| |p]; simpl; [| | done |].
  - unfold Connected, getOrCreate. by destruct (peerProcesses pm !! p).
  - unfold Disconnected. destruct (peerProcesses pm !! p); [|done].
    simpl. by destruct (0 <? _).
  - unfold GetProcess, getOrCreate. by destruct (peerProcesses pm !! p).
Qed.

(** What one call does to the workers: nothing, or it maps for an
    unmapped peer the worker the factory returns and starts it, or it
    unmaps a peer and shuts its worker down. *)
Lemma call_transition (pm : PeerManager) (c : Call) :
  (workers (call pm c).1 = workers pm ∧
   workersMade (call pm c).1 = workersMade pm ∧
   (call pm c).2 = []) ∨
  (∃ p, workers pm !! p = None ∧
        workers (call pm c).1 =
          <[p := createPeerProcess pm (factoryCalls pm) p]> (workers pm) ∧
        workersMade (call pm c).1 =
          workersMade pm ++ [createPeerProcess pm (factoryCalls pm) p] ∧
        (call pm c).2 = [Startup (createPeerProcess pm (factoryCalls pm) p)]) ∨
  (∃ p pq, workers pm !! p = Some pq ∧
           workers (call pm c).1 = delete p (workers pm) ∧
           workersMade (call pm c).1 = workersMade pm ∧
           (call pm c).2 = [Shutdown pq]).
Proof.
  assert (Hsame : ∀ p pqi r, peerProcesses pm !! p = Some pqi →
            process <$> <[p := {| refcnt := r; process := process pqi |}]>
                          (peerProcesses pm) = workers pm).
  { intros p pqi r Hp. unfold workers. rewrite fmap_insert. apply insert_id.
    by rewrite lookup_fmap, Hp. }
  destruct c as [p|p| |p]; simpl.
  - unfold Connected, getOrCreate.
    destruct (peerProcesses pm !! p) as [pqi|] eqn:Hp; simpl.
    + left. unfold workers at 1; simpl. by rewrite Hsame.
    + right. left. exists p. unfold workers, workersMade; simpl.
      rewrite lookup_fmap, Hp, insert_insert_eq, fmap_insert.
      by rewrite workersMadeFrom_snoc.
  - unfold Disconnected.
    destruct (peerProcesses pm !! p) as [pqi|] eqn:Hp; simpl; [|by left].
    destruct (0 <? _); simpl.
    + left. unfold workers at 1; simpl. by rewrite Hsame.
    + right. right. exists p, (process pqi). unfold workers; simpl.
      by rewrite lookup_fmap, Hp, fmap_delete.
  - by left.
  - unfold GetProcess, getOrCreate.
    destruct (peerProcesses pm !! p) as [pqi|] eqn:Hp; simpl; [by left|].
    right. left. exists p. unfold workers, workersMade; simpl.
    rewrite lookup_fmap, Hp, fmap_insert. by rewrite workersMadeFrom_snoc.
Qed.

Lemma lifecycle_step (pm pm' : PeerManager) (log effs : list Effect) :
  (workers pm' = workers pm ∧ workersMade pm' = workersMade pm ∧ effs = []) ∨
  (∃ p w, workers pm !! p = None ∧ (w ∉ workersMade pm) ∧
          workers pm' = <[p := w]> (workers pm) ∧
          workersMade pm' = workersMade pm ++ [w] ∧
          effs = [Startup w]) ∨
  (∃ p pq, workers pm !! p = Some pq ∧
           workers pm' = delete p (workers pm) ∧
           workersMade pm' = workersMade pm ∧
           effs = [Shutdown pq]) →
  lifecycle pm log ∧ (∀ pq, (pq ∉ workersMade pm) → shutdowns pq log = 0%nat) →
  lifecycle pm' (log ++ effs) ∧
    (∀ pq, (pq ∉ workersMade pm') → shutdowns pq (log ++ effs) = 0%nat).
Proof.
  intros Hstep ((Hst & Hsh & Hord & Hmap & Hinj) & Hfresh).
  destruct Hstep as [(Hw & Hc & ->) | [(p & w & Hp & Hnew & Hw & Hc & ->) |
                                       (p & pq0 & Hp & Hw & Hc & ->)]].
  - rewrite app_nil_r. unfold lifecycle, mapped. rewrite Hw, Hc. done.
  - unfold lifecycle, mapped. rewrite Hw, Hc.
    split; [split; [|split; [|split; [|split]]]|].
    + intros pq. rewrite startups_app, startups_one, Hst.
      destruct (decide (pq = w)) as [->|Hne].
      * rewrite (decide_False (P := w ∈ workersMade pm)) by done.
        rewrite decide_True by done.
        rewrite decide_True; [done|]. apply elem_of_app. right. by left.
      * rewrite (decide_False (P := Startup w = Startup pq)) by congruence.
        rewrite Nat.add_0_r.
        destruct (decide (pq ∈ workersMade pm)) as [Hin|Hin].
        -- rewrite decide_True; [done|]. apply elem_of_app. by left.
        -- rewrite decide_False; [done|]. rewrite elem_of_app.
           rewrite list_elem_of_singleton. tauto.
    + intros pq. rewrite shutdowns_app, shutdowns_one.
      rewrite decide_False by discriminate. specialize (Hsh pq). lia.
    + intros j pq Hj. apply lookup_app_Some in Hj as [Hj | [_ Hj]].
      * destruct (Hord _ _ Hj) as (i & Hi & Hlog). exists i. split; [done|].
        by apply lookup_app_l_Some.
      * destruct (j - length log)%nat; simplify_eq/=.
    + intros pq. rewrite shutdowns_app, shutdowns_one.
      rewrite decide_False by discriminate. rewrite Nat.add_0_r.
      rewrite elem_of_app, list_elem_of_singleton. split.
      * intros [q Hq]. rewrite lookup_insert in Hq. case_decide.
        -- simplify_eq. split; [by right | by apply Hfresh].
        -- assert (Hm : mapped pm pq) by (by exists q).
           apply Hmap in Hm as [? ?]. split; [by left | done].
      * intros [[Hin | ->] Hz].
        -- assert (Hm : mapped pm pq) by (by apply Hmap).
           destruct Hm as [q Hq]. exists q. rewrite lookup_insert_ne; [done|].
           intros ->. congruence.
        -- exists p. by rewrite lookup_insert_eq.
    + assert (Hin : ∀ q pq, workers pm !! q = Some pq → pq ∈ workersMade pm).
      { intros q pq Hq. assert (Hm : mapped pm pq) by (by exists q).
        by apply Hmap in Hm as [? ?]. }
      intros q1 q2 pq. rewrite !lookup_insert.
      repeat case_decide; subst; intros H1 H2; simplify_eq; try done.
      * apply Hin in H2. done.
      * apply Hin in H1. done.
      * eauto.
    + intros pq Hpq. rewrite shutdowns_app, shutdowns_one.
      rewrite decide_False by discriminate.
      rewrite Hfresh; [done|]. intros Hin. apply Hpq, elem_of_app. by left.
  - assert (Hm0 : mapped pm pq0) by (by exists p).
    apply Hmap in Hm0 as [Hlt0 Hz0].
    unfold lifecycle, mapped. rewrite Hw, Hc.
    split; [split; [|split; [|split; [|split]]]|].
    + intros pq. rewrite startups_app, startups_one.
      rewrite decide_False by discriminate. rewrite Nat.add_0_r. apply Hst.
    + intros pq. rewrite shutdowns_app, shutdowns_one.
      case_decide; simplify_eq; [lia|]. specialize (Hsh pq). lia.
    + intros j pq Hj. apply lookup_app_Some in Hj as [Hj | [Hlen Hj]].
      * destruct (Hord _ _ Hj) as (i & Hi & Hlog). exists i. split; [done|].
        by apply lookup_app_l_Some.
      * destruct (j - length log)%nat eqn:Hjl; simplify_eq/=.
        destruct (startups_lookup pq log) as [i Hi].
        { rewrite Hst. rewrite decide_True by done. lia. }
        exists i. split; [apply lookup_lt_Some in Hi; lia|].
        by apply lookup_app_l_Some.
    + intros pq. rewrite shutdowns_app, shutdowns_one. split.
      * intros [q Hq]. rewrite lookup_delete in Hq. case_decide; [done|].
        assert (Hm : mapped pm pq) by (by exists q).
        apply Hmap in Hm as [? ?]. split; [done|].
        rewrite decide_False; [lia|]. intros [= ->]. eauto.
      * intros [Hlt Hz]. case_decide as Heq; [lia|].
        assert (Hm : mapped pm pq) by (apply Hmap; split; [done | lia]).
        destruct Hm as [q Hq]. exists q. rewrite lookup_delete_ne; [done|].
        intros ->. congruence.
    + intros q1 q2 pq. rewrite !lookup_delete.
      repeat case_decide; try done. apply Hinj.
    + intros pq Hpq. rewrite shutdowns_app, shutdowns_one, Hfresh by done.
      rewrite decide_False; [done|]. intros [= ->]. done.
Qed.

Lemma calls_lifecycle (cs : list Call) : ∀ pm log,
  freshFactory (createPeerProcess pm) →
  lifecycle pm log ∧ (∀ pq, (pq ∉ workersMade pm) → shutdowns pq log = 0%nat) →
  lifecycle (calls pm cs).1 (log ++ (calls pm cs).2).
Proof.
  induction cs as [|c cs IH]; intros pm log Hfresh Hinv; simpl.
  - rewrite app_nil_r. apply Hinv.
  - assert (Hstep :
      (workers (call pm c).1 = workers pm ∧
       workersMade (call pm c).1 = workersMade pm ∧ (call pm c).2 = []) ∨
      (∃ p w, workers pm !! p = None ∧ (w ∉ workersMade pm) ∧
              workers (call pm c).1 = <[p := w]> (workers pm) ∧
              workersMade (call pm c).1 = workersMade pm ++ [w] ∧
              (call pm c).2 = [Startup w]) ∨
      (∃ p pq, workers pm !! p = Some pq ∧
               workers (call pm c).1 = delete p (workers pm) ∧
               workersMade (call pm c).1 = workersMade pm ∧
               (call pm c).2 = [Shutdown pq])).
    { destruct (call_transition pm c) as [? | [(p & ? & ? & ? & ?) | ?]];
        [by left | | by right; right].
      right. left. exists p, (createPeerProcess pm (factoryCalls pm) p).
      repeat split; try done. by apply freshFactory_new_worker. }
    pose proof (lifecycle_step pm (call pm c).1 log (call pm c).2 Hstep Hinv)
      as Hnext.
    pose proof (call_factory pm c) as Hfac.
    destruct (call pm c) as [pm1 e1]. simpl in Hfac.
    assert (Hfresh1 : freshFactory (createPeerProcess pm1)) by (by rewrite Hfac).
    specialize (IH pm1 (log ++ e1) Hfresh1 Hnext).
    destruct (calls pm1 cs) as [pm2 e2]. simpl in *. by rewrite app_assoc.
Qed.

Lemma lifecycle_New (factory : PeerProcessFactory) :
  lifecycle (New factory) [] ∧
  (∀ pq, (pq ∉ workersMade (New factory)) → shutdowns pq [] = 0%nat).
Proof.
  split; [|done].
  unfold lifecycle, mapped, workers, workersMade, New; simpl.
  split; [|split; [|split; [|split]]].
  - intros pq. reflexivity.
  - intros pq. unfold shutdowns. simpl. lia.
  - intros j pq Hj. by rewrite lookup_nil in Hj.
  - intros pq. rewrite fmap_empty. split.
    + intros [p Hp]. by rewrite lookup_empty in Hp.
    + intros [Hin _]. by apply elem_of_nil in Hin.
  - intros p q pq Hp. by rewrite fmap_empty, lookup_empty in Hp.
Qed.

(** C3, as the claim has it, fails: [GetProcess] for an unknown peer
    maps a new instance whose count is 0. *)
Lemma GetProcess_maps_refcount_zero :
  ¬ (∀ p pqi,
       peerProcesses (calls (New countingFactory) [CallGetProcess "a"]).1 !! p =
         Some pqi →
       1 ≤ refcnt pqi).
Proof.
  intros H. specialize (H "a" {| refcnt := 0; process := 0%nat |}).
  assert (1 ≤ 0) by (apply H; reflexivity). lia.
Qed.

(** C3, amended.  After any sequence of [Connected], [Disconnected],
    [ConnectedPeers] and [GetProcess] calls (fewer than 2^63 of them)
    on a new manager, whatever its factory: every mapped instance has
    a count of at least 0; the count is 0 exactly when the instance
    was made by a [GetProcess] call and its peer was neither connected
    nor disconnected since, and at least 1 otherwise; a further
    [Disconnected] whose decrement stays positive keeps the entry and
    calls no worker, and one whose decrement reaches zero or less
    removes the entry and calls [Shutdown] exactly once, on that
    entry's worker.  If the factory returns a new worker on every
    call, no worker is shut down twice in the whole sequence and a
    mapped worker was never shut down. *)
Theorem peer_refcounts (factory : PeerProcessFactory) (cs : list Call)
    (p : peerID) :
  Z.of_nat (length cs) < 2 ^ 63 →
  let pm := (calls (New factory) cs).1 in
  let log := (calls (New factory) cs).2 in
  (∀ q pqi, peerProcesses pm !! q = Some pqi →
     0 ≤ refcnt pqi ∧
     (madeByGetProcess factory cs q → refcnt pqi = 0) ∧
     (¬ madeByGetProcess factory cs q → 1 ≤ refcnt pqi)) ∧
  DisconnectedReleases pm p ∧
  (freshFactory factory →
   ∀ pq, (shutdowns pq log ≤ 1)%nat ∧ (mapped pm pq → shutdowns pq log = 0%nat)).
Proof.
  intros Hlen pm log. split; [|split].
  - intros q pqi Hq.
    destruct (refcounts_invariant factory cs Hlen q pqi Hq) as [Hr Hiff].
    split; [lia|]. split; [apply Hiff|].
    intros Hnot. destruct (decide (refcnt pqi = 0)) as [Hz|Hz]; [|lia].
    by apply Hiff in Hz.
  - apply refcounts_DisconnectedReleases. intros pqi Hp.
    destruct (refcounts_invariant factory cs Hlen p pqi Hp) as [Hr _]. lia.
  - intros Hfresh.
    pose proof (calls_lifecycle cs (New factory) [] Hfresh (lifecycle_New factory))
      as (_ & Hsh & _ & Hmap & _).
    intros pq. split; [apply Hsh|]. intros Hm. by apply Hmap in Hm as [_ ?].
Qed.

Lemma peer_refcounts_witness :
  let pm := (calls (New countingFactory) [CallConnected "a"; CallGetProcess "a"]).1 in
  ∃ pqi, peerProcesses pm !! "a" = Some pqi ∧ 1 ≤ refcnt pqi ∧
         peerProcesses (Disconnected pm "a").1 = delete "a" (peerProcesses pm) ∧
         (Disconnected pm "a").2 = [Shutdown (process pqi)].
Proof.
  intros pm.
  destruct (peer_refcounts countingFactory
              [CallConnected "a"; CallGetProcess "a"] "a")
    as (Hcount & (_ & Hrel & _) & _); [simpl; lia|].
  exists {| refcnt := 1; process := 0%nat |}.
  assert (Hp : peerProcesses pm !! "a" = Some {| refcnt := 1; process := 0%nat |})
    by reflexivity.
  split; [exact Hp|]. split.
  - apply (Hcount "a" _ Hp). intros (cs1 & cs2 & Heq & Hnone & _).
    destruct cs1 as [|c1 [|c2 cs1]]; [discriminate Heq | |].
    + injection Heq as <- _. vm_compute in Hnone. discriminate Hnone.
    + injection Heq as _ _ Heq. by destruct cs1.
  - apply (Hrel _ Hp). simpl. lia.
Defined.

End PeerRefcounts.

(** ** The wire codec: [ToProto] followed by [newMessageFromProto] *)
Section Codec.
Import Message.
Context `{CidLib}.

(** Storing values under their own keys, one after the other, rebuilds
    a map from any enumeration of it. *)
Lemma foldl_insert_union `{Countable K} {V} (key : V → K) (l : list V) :
  ∀ acc : gmap K V,
  NoDup (key <$> l) →
  foldl (λ m v, <[key v := v]> m) acc l =
  list_to_map ((λ v, (key v, v)) <$> l) ∪ acc.
Proof.
  induction l as [|v l IH]; intros acc Hnd.
  - simpl. by rewrite (left_id_L ∅ (∪)).
  - rewrite fmap_cons in Hnd. apply NoDup_cons in Hnd as [Hv Hnd].
    rewrite fmap_cons, list_to_map_cons. cbn [foldl]. rewrite IH by done.
    rewrite <- insert_union_l. symmetry. apply insert_union_r.
    apply not_elem_of_list_to_map_1. rewrite <- list_fmap_compose.
    exact Hv.
Qed.

Lemma foldl_insert_range `{Countable K} {V} (key : V → K) (m : gmap K V)
    (l : list V) :
  (∀ k v, m !! k = Some v → key v = k) → rangeOver m l →
  foldl (λ acc v, <[key v := v]> acc) ∅ l = m.
Proof.
  intros Hkey Hl. unfold rangeOver in Hl.
  assert (Hpairs : (λ v, (key v, v)) <$> (map_to_list m).*2 = map_to_list m).
  { rewrite <- list_fmap_compose. rewrite <- (list_fmap_id (map_to_list m)) at 2.
    apply list_fmap_ext. intros i [k v] Hi; simpl.
    apply list_elem_of_lookup_2, elem_of_map_to_list in Hi.
    by rewrite (Hkey _ _ Hi). }
  assert (Hperm : (λ v, (key v, v)) <$> l ≡ₚ map_to_list m).
  { rewrite <- Hpairs. by apply fmap_Permutation. }
  assert (Hnd : NoDup (key <$> l)).
  { replace (key <$> l) with (((λ v, (key v, v)) <$> l).*1)
      by (rewrite <- list_fmap_compose; done).
    rewrite Hperm. apply NoDup_fst_map_to_list. }
  rewrite foldl_insert_union by done.
  rewrite (right_id_L ∅ (∪)).
  transitivity (list_to_map (map_to_list m) : gmap K V);
    [|apply list_to_map_to_list].
  apply list_to_map_proper; [|done].
  rewrite Hperm. apply NoDup_fst_map_to_list.
Qed.

Lemma newRequest_eta (r : GraphSyncRequest) :
  newRequest (id r) (selector r) (priority r) (isCancel r) = r.
Proof. by destruct r. Qed.

Lemma NewResponse_eta (r : GraphSyncResponse) :
  NewResponse (requestID r) (status r) (extra r) = r.
Proof. by destruct r. Qed.

Lemma foldl_AddRequest (l : list GraphSyncRequest) : ∀ g,
  foldl (λ g req, AddRequest g
           (newRequest (pb.Request_Id req) (pb.Request_Selector req)
              (pb.Request_Priority req) (pb.Request_Cancel req)))
        g (protoRequest <$> l) =
  {| requests := foldl (λ m r, <[id r := r]> m) (requests g) l;
     responses := responses g; blocks := blocks g |}.
Proof.
  induction l as [|r l IH]; intros g.
  - by destruct g.
  - rewrite fmap_cons. cbn [foldl]. rewrite IH. simpl.
    by rewrite newRequest_eta.
Qed.

Lemma foldl_AddResponse (l : list GraphSyncResponse) : ∀ g,
  foldl (λ g res, AddResponse g
           (NewResponse (pb.Response_Id res) (pb.Response_Status res)
              (pb.Response_Extra res)))
        g (protoResponse <$> l) =
  {| requests := requests g;
     responses := foldl (λ m r, <[requestID r := r]> m) (responses g) l;
     blocks := blocks g |}.
Proof.
  induction l as [|r l IH]; intros g.
  - by destruct g.
  - rewrite fmap_cons. cbn [foldl]. rewrite IH. simpl.
    by rewrite NewResponse_eta.
Qed.

Lemma addProtoBlocks_addressed (l : list Block) : ∀ g,
  prefixCodec → Forall blockAddressed l →
  addProtoBlocks g (protoBlock <$> l) =
  Some {| requests := requests g; responses := responses g;
          blocks := foldl (λ m b, <[blockCid b := b]> m) (blocks g) l |}.
Proof.
  induction l as [|b l IH]; intros g Hcodec Hl.
  - by destruct g.
  - apply Forall_cons in Hl as [Hb Hl]. rewrite fmap_cons. cbn [addProtoBlocks].
    unfold protoBlock at 1 2 3; simpl. rewrite Hcodec; simpl.
    rewrite Hb; simpl. destruct b as [data c]; simpl.
    by rewrite IH.
Qed.

(** Every message the [Add] methods build is keyed. *)
Lemma keyed_newMsg : keyed newMsg.
Proof.
  unfold keyed, newMsg; simpl.
  repeat split; intros ? ? Hl; by rewrite lookup_empty in Hl.
Qed.

Lemma keyed_AddRequest g r : keyed g → keyed (AddRequest g r).
Proof.
  intros (H1 & H2 & H3). repeat split; try done; simpl.
  intros k r'. rewrite lookup_insert. case_decide; [by intros [= <-] | apply H1].
Qed.

Lemma keyed_AddResponse g r : keyed g → keyed (AddResponse g r).
Proof.
  intros (H1 & H2 & H3). repeat split; try done; simpl.
  intros k r'. rewrite lookup_insert. case_decide; [by intros [= <-] | apply H2].
Qed.

Lemma keyed_AddBlock g b : keyed g → keyed (AddBlock g b).
Proof.
  intros (H1 & H2 & H3). repeat split; try done; simpl.
  intros k r'. rewrite lookup_insert. case_decide; [by intros [= <-] | apply H3].
Qed.

Lemma ToProto_MayReturn g : ToProtoMayReturn g (ToProto g).
Proof.
  exists (Requests g), (Responses g), (Blocks g).
  unfold rangeOver, Requests, Responses, Blocks, ToProto.
  repeat split; reflexivity.
Qed.

(** C4, as the claim has it, fails: a message can hold a block made
    with an address other than the one its data hashes to, and the
    decoder recomputes every address from prefix and data.  Here the
    block sits under digest 62 and comes back under digest 61. *)
Lemma misaddressed_block_not_reproduced :
  ¬ ∃ decoded,
      @newMessageFromProto identityCids (ToProto misaddressedMessage) = Some decoded ∧
      dom (blocks decoded) = dom (blocks misaddressedMessage).
Proof.
  intros (decoded & Hdec & Hdom).
  unfold ToProto, Requests, Responses, Blocks, misaddressedMessage, AddBlock,
    newMsg in Hdec.
  cbn [requests responses blocks RawData blockCid] in Hdec.
  rewrite insert_empty, map_to_list_singleton, !map_to_list_empty in Hdec.
  cbn in Hdec. injection Hdec as <-.
  assert (Hin : mkIdCid [x01; x55] [x62] ∈ dom (blocks misaddressedMessage)).
  { apply elem_of_dom. eexists. unfold misaddressedMessage, AddBlock.
    cbn [blocks blockCid]. apply lookup_insert_eq. }
  rewrite <- Hdom in Hin. apply elem_of_dom in Hin as [b Hb].
  unfold AddBlock, newMsg in Hb. cbn [blocks blockCid] in Hb.
  rewrite lookup_insert_ne in Hb by discriminate.
  by rewrite lookup_empty in Hb.
Qed.

(** C4, amended.  For every message built by the [Add] methods whose
    blocks each carry the address their prefix and data hash to (and
    an address library whose prefixes survive their byte encoding),
    decoding any encoding of the message succeeds and yields the same
    message: the same requests under the same ids with equal selector,
    priority and cancel flag, the same responses under the same request
    ids with equal status and extra, and the same blocks under the same
    content addresses. *)
Theorem decode_encode (gsm : graphSyncMessage) (pbm : pb.Message) :
  prefixCodec → keyed gsm →
  (∀ c b, blocks gsm !! c = Some b → blockAddressed b) →
  ToProtoMayReturn gsm pbm →
  newMessageFromProto pbm = Some gsm.
Proof.
  intros Hcodec (Kreq & Kres & Kblk) Haddr (reqs & resps & blks & Hr & Hs & Hb & ->).
  unfold newMessageFromProto, toProtoOf; simpl.
  rewrite foldl_AddRequest, foldl_AddResponse; simpl.
  rewrite addProtoBlocks_addressed; [simpl | done |].
  - rewrite (foldl_insert_range id (requests gsm)) by done.
    rewrite (foldl_insert_range requestID (responses gsm)) by done.
    rewrite (foldl_insert_range blockCid (blocks gsm)) by done.
    by destruct gsm.
  - apply Forall_forall. intros b Hin. unfold rangeOver in Hb.
    rewrite Hb in Hin. apply list_elem_of_fmap in Hin as ([c b'] & -> & Hin).
    apply elem_of_map_to_list in Hin. by apply (Haddr c).
Qed.

End Codec.

Section CodecSample.
Import Message.

Lemma decode_encode_witness :
  @newMessageFromProto identityCids (ToProto sampleMessage) = Some sampleMessage.
Proof.
  apply (@decode_encode identityCids sampleMessage (ToProto sampleMessage)).
  - intros pref. reflexivity.
  - unfold sampleMessage.
    apply keyed_AddBlock, keyed_AddResponse, keyed_AddRequest, keyed_AddRequest,
      keyed_newMsg.
  - intros c b. unfold sampleMessage; simpl. rewrite lookup_insert.
    case_decide; [|by rewrite lookup_empty]. intros [= <-]. reflexivity.
  - apply ToProto_MayReturn.
Defined.

End CodecSample.

(** ** The request manager's event loop *)
Section EventLoop.
Import Message RequestManager.
Context `{Collaborators}.

Lemma bind_run {A B} (m : M A) (k : A → M B) (rm : RequestManager) :
  (m ≫= k) rm =
  match m rm with
  | (t1, rm1, Halted h) => (t1, rm1, Halted h)
  | (t1, rm1, Value a) =>
      match k a rm1 with (t2, rm2, b) => (t1 ++ t2, rm2, b) end
  end.
Proof. reflexivity. Qed.

Lemma processTermination_run (r : GraphSyncResponse) (rm : RequestManager) :
  processTermination r rm =
  if IsTerminalResponseCode (status r) then
    if IsTerminalFailureCode (status r) then
      match inProgressRequestStatuses rm !! requestID r with
      | None => ([], rm, Halted NilDereference)
      | Some st =>
          ([PublishNetworkError st (generateResponseErrorFromStatus (status r));
            CancelFn st; CompleteResponsesFor (requestID r);
            DeleteStatus (requestID r)],
           withoutStatus (requestID r) rm, Value tt)
      end
    else ([CompleteResponsesFor (requestID r); DeleteStatus (requestID r)],
          withoutStatus (requestID r) rm, Value tt)
  else ([], rm, Value tt).
Proof.
  unfold processTermination.
  destruct (IsTerminalResponseCode (status r)); [|reflexivity].
  destruct (IsTerminalFailureCode (status r)); [|reflexivity].
  rewrite !bind_run. unfold lookupStatus.
  destruct (inProgressRequestStatuses rm !! requestID r); reflexivity.
Qed.

Lemma processTerminations_cons (r : GraphSyncResponse) rest rm :
  processTerminations (r :: rest) rm =
  match processTermination r rm with
  | (t1, rm1, Halted h) => (t1, rm1, Halted h)
  | (t1, rm1, Value _) =>
      match processTerminations rest rm1 with
      | (t2, rm2, b) => (t1 ++ t2, rm2, b)
      end
  end.
Proof. reflexivity. Qed.

Lemma handleProcessResponse_run from responses blks rm :
  handleProcessResponse from responses blks rm =
  let filtered := filterResponsesForPeer rm responses from in
  match processTerminations filtered rm with
  | (t, rm', out) =>
      (ProcessResponse (metadataForResponses filtered) blks :: t, rm', out)
  end.
Proof.
  unfold handleProcessResponse. rewrite bind_run. unfold getManager.
  rewrite bind_run. unfold act.
  destruct (processTerminations _ rm) as [[t rm'] out]. reflexivity.
Qed.

(** The peer filter keeps exactly the responses whose id is in progress
    with the sending peer. *)
Lemma elem_of_filterResponsesForPeer rm responses from r :
  r ∈ filterResponsesForPeer rm responses from ↔
  r ∈ responses ∧
  ∃ st, inProgressRequestStatuses rm !! requestID r = Some st ∧ p st = from.
Proof.
  induction responses as [|r' rest IH]; simpl.
  - rewrite elem_of_nil. tauto.
  - destruct (inProgressRequestStatuses rm !! requestID r') as [st|] eqn:Hst.
    + case_decide as Hp.
      * rewrite IH, elem_of_cons. split; [tauto|].
        intros [[-> | Hin] (st' & Hst' & Hp')]; [|eauto].
        rewrite Hst in Hst'. by simplify_eq.
      * rewrite !elem_of_cons, IH. try apply dec_stable in Hp. split.
        -- intros [-> | [Hin Hex]]; [eauto | tauto].
        -- intros [[-> | Hin] Hex]; [by left | by right].
    + rewrite IH, elem_of_cons. split; [tauto|].
      intros [[-> | Hin] (st' & Hst' & Hp')]; [|eauto].
      rewrite Hst in Hst'. discriminate.
Qed.

Lemma filterResponsesForPeer_drop rm before r after from :
  ¬ (∃ st, inProgressRequestStatuses rm !! requestID r = Some st ∧ p st = from) →
  filterResponsesForPeer rm (before ++ r :: after) from =
  filterResponsesForPeer rm (before ++ after) from.
Proof.
  intros Hno. induction before as [|b before IH]; simpl.
  - destruct (inProgressRequestStatuses rm !! requestID r) as [st|] eqn:Hst;
      [|done].
    case_decide as Hp; [done|]. try apply dec_stable in Hp. exfalso. eauto.
  - rewrite IH. done.
Qed.

Lemma filterResponsesForPeer_idemp rm responses from :
  filterResponsesForPeer rm (filterResponsesForPeer rm responses from) from =
  filterResponsesForPeer rm responses from.
Proof.
  induction responses as [|r rest IH]; simpl; [done|].
  destruct (inProgressRequestStatuses rm !! requestID r) as [st|] eqn:Hst;
    [|done].
  case_decide as Hp; [done|]. simpl.
  rewrite Hst, decide_False by (first [done | intros Hne; by apply Hne]).
  by rewrite IH.
Qed.

Lemma processTerminations_log_no_ProcessResponse responses : ∀ rm,
  Forall (λ a, isProcessResponse a = false)
    (logOf (processTerminations responses rm)).
Proof.
  induction responses as [|r rest IH]; intros rm; [by constructor|].
  rewrite processTerminations_cons, processTermination_run.
  destruct (IsTerminalResponseCode (status r)).
  - destruct (IsTerminalFailureCode (status r)).
    + destruct (inProgressRequestStatuses rm !! requestID r) as [st|];
        [|by constructor].
      specialize (IH (withoutStatus (requestID r) rm)).
      destruct (processTerminations rest _) as [[t rm'] out].
      unfold logOf in *; simpl in *. by repeat constructor.
    + specialize (IH (withoutStatus (requestID r) rm)).
      destruct (processTerminations rest _) as [[t rm'] out].
      unfold logOf in *; simpl in *. by repeat constructor.
  - specialize (IH rm). destruct (processTerminations rest rm) as [[t rm'] out].
    exact IH.
Qed.

(** What the handler of a [processResponseMessage] from peer [from]
    passes on: the list given to the async loader (as metadata) and to
    [processTerminations] holds exactly the responses of the batch
    whose request id has an in-progress entry recorded for [from]; a
    response with no entry, or with an entry of another peer, can be
    taken out of the batch without changing anything the handler
    does. *)
Lemma handleProcessResponse_passes_filtered (rm : RequestManager) (from : peerID)
    (responses : list GraphSyncResponse) (blks : list BlockT) :
  let acted := filterResponsesForPeer rm responses from in
  (∀ r, r ∈ acted ↔
        r ∈ responses ∧
        ∃ st, inProgressRequestStatuses rm !! requestID r = Some st ∧ p st = from) ∧
  handle (processResponseMessage from responses blks) rm =
    (act (ProcessResponse (metadataForResponses acted) blks);;
     processTerminations acted) rm ∧
  (∀ before r after,
     responses = before ++ r :: after →
     ¬ (∃ st, inProgressRequestStatuses rm !! requestID r = Some st ∧ p st = from) →
     handle (processResponseMessage from responses blks) rm =
     handle (processResponseMessage from (before ++ after) blks) rm).
Proof.
  intros acted. split; [|split].
  - intros r. apply elem_of_filterResponsesForPeer.
  - simpl. rewrite handleProcessResponse_run, bind_run. unfold act. simpl.
    fold acted. destruct (processTerminations acted rm) as [[t rm'] out].
    reflexivity.
  - intros before r after -> Hno. simpl.
    rewrite !handleProcessResponse_run. simpl.
    by rewrite filterResponsesForPeer_drop.
Qed.

(** C6.  In the actions of one handled batch, the loader's
    [ProcessResponse] is the first action and the only one of its
    kind, so every [CompleteResponsesFor] of the batch comes after
    it. *)
Theorem ProcessResponse_precedes_CompleteResponsesFor (rm : RequestManager)
    (from : peerID) (responses : list GraphSyncResponse) (blks : list BlockT) :
  let log := logOf (handle (processResponseMessage from responses blks) rm) in
  log !! 0%nat =
    Some (ProcessResponse
            (metadataForResponses (filterResponsesForPeer rm responses from)) blks) ∧
  (∀ j a, log !! j = Some a → isProcessResponse a = true → j = 0%nat) ∧
  (∀ j a, log !! j = Some a → isCompleteResponsesFor a = true → (0 < j)%nat).
Proof.
  simpl. rewrite handleProcessResponse_run. simpl.
  pose proof (processTerminations_log_no_ProcessResponse
                (filterResponsesForPeer rm responses from) rm) as Hno.
  destruct (processTerminations _ rm) as [[t rm'] out].
  unfold logOf in *; simpl in *. split; [reflexivity|]. split.
  - intros [|j] a Ha Hp; [done|]. simpl in Ha.
    rewrite Forall_forall in Hno.
    apply list_elem_of_lookup_2, Hno in Ha. congruence.
  - intros [|j] a Ha Hc; [|lia]. simpl in Ha. injection Ha as <-. discriminate.
Qed.

(** C7.  A cancel for an id in progress sends the cancel frame (empty
    selector, priority 0, cancel flag) to the entry's peer, then
    deletes the entry, then cancels the request's context; a cancel for
    an id not in progress does nothing; so a second cancel for the same
    id does nothing. *)
Theorem cancel_sends_then_removes (rm : RequestManager) (i : GraphSyncRequestID) :
  match inProgressRequestStatuses rm !! i with
  | Some st =>
      handle (cancelRequestMessage i) rm =
        ([PeerHandlerSendRequest (p st)
            {| selector := []; priority := 0; id := i; isCancel := true |};
          DeleteStatus i; CancelFn st],
         withoutStatus i rm, Value tt)
  | None => handle (cancelRequestMessage i) rm = ([], rm, Value tt)
  end ∧
  let rm' := managerOf (handle (cancelRequestMessage i) rm) in
  inProgressRequestStatuses rm' !! i = None ∧
  handle (cancelRequestMessage i) rm' = ([], rm', Value tt).
Proof.
  assert (Hrun : handle (cancelRequestMessage i) rm =
    match inProgressRequestStatuses rm !! i with
    | Some st =>
        ([PeerHandlerSendRequest (p st) (CancelRequest i); DeleteStatus i;
          CancelFn st], withoutStatus i rm, Value tt)
    | None => ([], rm, Value tt)
    end).
  { simpl. unfold handleCancelRequest. rewrite bind_run. unfold lookupStatus.
    destruct (inProgressRequestStatuses rm !! i); reflexivity. }
  assert (Hnone : ∀ rm0, inProgressRequestStatuses rm0 !! i = None →
            handle (cancelRequestMessage i) rm0 = ([], rm0, Value tt)).
  { intros rm0 H0. simpl. unfold handleCancelRequest. rewrite bind_run.
    unfold lookupStatus. by rewrite H0. }
  split.
  - rewrite Hrun. by destruct (inProgressRequestStatuses rm !! i).
  - rewrite Hrun.
    destruct (inProgressRequestStatuses rm !! i) as [st|] eqn:Hst; simpl.
    + unfold managerOf; simpl. split; [apply lookup_delete_eq|].
      apply Hnone. apply lookup_delete_eq.
    + unfold managerOf; simpl. split; [done | by apply Hnone].
Qed.

(** C8.  With a selector node the bridge reports invalid, [SendRequest]
    returns at once and posts nothing to the event loop: the progress
    stream is closed and empty, and the error stream holds the one
    error "Invalid Selector Spec" and is closed. *)
Theorem invalid_selector_single_error (taken : SelectCase) (to : peerID)
    (node : Node) :
  ValidateSelectorSpec node ≠ [] →
  let progress : chan ResponseProgress :=
    {| buffer := []; capacity := 0; closed := true |} in
  let errors : chan string :=
    {| buffer := ["Invalid Selector Spec"]; capacity := 1; closed := true |} in
  SendRequest taken to node = Some (Returned [] progress errors) ∧
  recv progress = Some (None, progress) ∧
  ∃ drained,
    recv errors = Some (Some "Invalid Selector Spec", drained) ∧
    recv drained = Some (None, drained).
Proof.
  intros Hinvalid progress errors. split; [|split].
  - unfold SendRequest.
    destruct (ValidateSelectorSpec node) as [|e es]; [done|]. reflexivity.
  - reflexivity.
  - eexists. split; reflexivity.
Qed.

(** The handler runs to its end on a batch that names every request
    at most once, as the batches taken from a decoded wire message do
    (its responses are keyed by request id). *)
Lemma filterResponsesForPeer_NoDup rm responses from :
  NoDup (requestID <$> responses) →
  NoDup (requestID <$> filterResponsesForPeer rm responses from).
Proof.
  induction responses as [|r rest IH]; [done|].
  rewrite fmap_cons, NoDup_cons. intros [Hr Hnd]. simpl.
  destruct (inProgressRequestStatuses rm !! requestID r) as [st|]; [|auto].
  case_decide; [auto|].
  rewrite fmap_cons, NoDup_cons. split; [|auto].
  intros Hin. apply Hr. apply list_elem_of_fmap in Hin as (r' & -> & Hin).
  apply elem_of_filterResponsesForPeer in Hin as [Hin _].
  apply list_elem_of_fmap. eauto.
Qed.

Lemma processTerminations_distinct_total responses : ∀ rm,
  NoDup (requestID <$> responses) →
  (∀ r, r ∈ responses → is_Some (inProgressRequestStatuses rm !! requestID r)) →
  outcomeOf (processTerminations responses rm) = Value tt.
Proof.
  induction responses as [|r rest IH]; intros rm Hnd Hin; [done|].
  rewrite fmap_cons, NoDup_cons in Hnd. destruct Hnd as [Hr Hnd].
  assert (Hrest : ∀ r', r' ∈ rest →
            is_Some (inProgressRequestStatuses (withoutStatus (requestID r) rm)
                       !! requestID r')).
  { intros r' Hr'. simpl. rewrite lookup_delete_ne.
    - apply Hin. by right.
    - intros Heq. apply Hr. rewrite Heq. apply list_elem_of_fmap. eauto. }
  rewrite processTerminations_cons, processTermination_run.
  destruct (IsTerminalResponseCode (status r)).
  - destruct (IsTerminalFailureCode (status r)).
    + destruct (Hin r) as [st ->]; [by left|].
      specialize (IH _ Hnd Hrest).
      destruct (processTerminations rest _) as [[t rm'] out]. exact IH.
    + specialize (IH _ Hnd Hrest).
      destruct (processTerminations rest _) as [[t rm'] out]. exact IH.
  - assert (Hin' : ∀ r', r' ∈ rest →
              is_Some (inProgressRequestStatuses rm !! requestID r'))
      by (intros r' Hr'; apply Hin; by right).
    specialize (IH _ Hnd Hin').
    destruct (processTerminations rest rm) as [[t rm'] out]. exact IH.
Qed.

Lemma handleProcessResponse_distinct_total rm from responses blks :
  NoDup (requestID <$> responses) →
  outcomeOf (handle (processResponseMessage from responses blks) rm) = Value tt.
Proof.
  intros Hnd. simpl. rewrite handleProcessResponse_run. simpl.
  pose proof (processTerminations_distinct_total
                (filterResponsesForPeer rm responses from) rm
                (filterResponsesForPeer_NoDup rm responses from Hnd)) as Htotal.
  destruct (processTerminations _ rm) as [[t rm'] out].
  apply Htotal. intros r Hr.
  apply elem_of_filterResponsesForPeer in Hr as (_ & st & -> & _). eauto.
Qed.

End EventLoop.

Section EventLoopSamples.
Import Message RequestManager.

Lemma ProcessResponse_precedes_CompleteResponsesFor_witness :
  let log := logOf (@handle bytesCollaborators
                      (@processResponseMessage bytesCollaborators "alice"
                         completedBatch oneBlock)
                      oneRequest) in
  ∃ j, log !! j = Some (@CompleteResponsesFor bytesCollaborators 0) ∧ (0 < j)%nat.
Proof.
  intros log. exists 1%nat.
  assert (Hj : log !! 1%nat = Some (@CompleteResponsesFor bytesCollaborators 0))
    by reflexivity.
  split; [exact Hj|].
  exact (proj2 (proj2 (@ProcessResponse_precedes_CompleteResponsesFor
                         bytesCollaborators oneRequest "alice"
                         completedBatch oneBlock))
           1%nat (@CompleteResponsesFor bytesCollaborators 0) Hj eq_refl).
Defined.

Lemma invalid_selector_single_error_witness :
  @SendRequest bytesCollaborators MessageSent "alice" [] =
  Some (Returned []
          {| buffer := []; capacity := 0; closed := true |}
          {| buffer := ["Invalid Selector Spec"]; capacity := 1; closed := true |}).
Proof.
  apply (@invalid_selector_single_error bytesCollaborators MessageSent "alice" []).
  simpl. discriminate.
Defined.

(** C10.  The manager has request 0 in progress with peer "alice", and
    "alice" sends a batch with two terminal-failure responses for
    request 0.  Both pass the peer filter, which looks at the map as it
    is before any termination; the first response deletes the entry,
    and for the second the lookup in [processTerminations] finds no
    entry and the handler stops on the nil dereference. *)
Theorem repeated_terminal_failure_nil_dereference :
  inProgressRequestStatuses oneRequest !! 0 = Some {| made := 0; p := "alice" |} ∧
  filterResponsesForPeer oneRequest twiceFailedBatch "alice" = twiceFailedBatch ∧
  @handle bytesCollaborators (processResponseMessage "alice" twiceFailedBatch [])
    oneRequest =
  ([ProcessResponse (metadataForResponses twiceFailedBatch) [];
    PublishNetworkError {| made := 0; p := "alice" |} "Request Failed - Peer Is Busy";
    CancelFn {| made := 0; p := "alice" |};
    CompleteResponsesFor 0;
    DeleteStatus 0],
   withoutStatus 0 oneRequest,
   Halted NilDereference).
Proof. repeat split; vm_compute; reflexivity. Qed.

(** C5.  The manager has request 0 in progress with peer "alice", and
    "alice" sends a batch with two terminal failures for request 0,
    "busy" and then "legal".  Each of the two responses names an id
    whose in-progress entry is recorded for "alice", both pass the peer
    filter, and the metadata of both is forwarded to the loader.  But
    only the termination of the first is processed (error published,
    request cancelled and completed, entry deleted): for the second the
    lookup in [processTerminations] finds no entry, the handler stops
    on the nil dereference, and the error of the second response, which
    the handler publishes when that response comes alone, is never
    published. *)
Theorem kept_response_termination_not_processed :
  let st := {| made := 0; p := "alice" |} in
  let first := NewResponse 0 RequestFailedBusy [] in
  let second := NewResponse 0 RequestFailedLegal [] in
  busyThenLegalBatch = [first; second] ∧
  inProgressRequestStatuses oneRequest !! requestID first = Some st ∧
  inProgressRequestStatuses oneRequest !! requestID second = Some st ∧
  filterResponsesForPeer oneRequest busyThenLegalBatch "alice" = [first; second] ∧
  @handle bytesCollaborators (processResponseMessage "alice" busyThenLegalBatch [])
    oneRequest =
  ([ProcessResponse (metadataForResponses [first; second]) [];
    PublishNetworkError st "Request Failed - Peer Is Busy";
    CancelFn st;
    CompleteResponsesFor 0;
    DeleteStatus 0],
   withoutStatus 0 oneRequest,
   Halted NilDereference) ∧
  publishedErrors
    (logOf (@handle bytesCollaborators
              (processResponseMessage "alice" busyThenLegalBatch []) oneRequest)) =
    [(st, "Request Failed - Peer Is Busy")] ∧
  @handle bytesCollaborators (processResponseMessage "alice" [second] [])
    oneRequest =
  ([ProcessResponse (metadataForResponses [second]) [];
    PublishNetworkError st "Request Failed - For Legal Reasons";
    CancelFn st;
    CompleteResponsesFor 0;
    DeleteStatus 0],
   withoutStatus 0 oneRequest,
   Value tt).
Proof. repeat split; vm_compute; reflexivity. Qed.

End EventLoopSamples.

(** ** The request ids the loop gives out *)
Section RequestIDs.
Import Message RequestManager.
Context `{Collaborators}.

Lemma wrap32_small (z : Z) : MinInt32 ≤ z ≤ MaxInt32 → wrap32 z = z.
Proof.
  unfold MinInt32, MaxInt32, wrap32, wrap. intros Hz.
  change (2 ^ (32 - 1)) with 2147483648. change (2 ^ 32) with 4294967296.
  rewrite Z.mod_small; lia.
Qed.

Lemma wrap32_range (z : Z) : MinInt32 ≤ wrap32 z ≤ MaxInt32.
Proof.
  unfold MinInt32, MaxInt32, wrap32, wrap.
  change (2 ^ (32 - 1)) with 2147483648. change (2 ^ 32) with 4294967296.
  pose proof (Z.mod_pos_bound (z + 2147483648) 4294967296). lia.
Qed.

Lemma wrap32_add_l (a b : Z) : wrap32 (wrap32 a + b) = wrap32 (a + b).
Proof.
  unfold wrap32, wrap.
  change (2 ^ (32 - 1)) with 2147483648. change (2 ^ 32) with 4294967296.
  f_equal.
  replace ((a + 2147483648) mod 4294967296 - 2147483648 + b + 2147483648)
    with ((a + 2147483648) mod 4294967296 + b) by lia.
  rewrite Zplus_mod_idemp_l. f_equal. lia.
Qed.

Lemma countUp_lookup (k : nat) : ∀ (n : Z) (i : nat),
  MinInt32 ≤ n ≤ MaxInt32 → (i < k)%nat →
  countUp n k !! i = Some (wrap32 (n + Z.of_nat i)).
Proof.
  induction k as [|k IH]; intros n i Hn Hi; [lia|].
  destruct i as [|i]; simpl.
  - rewrite Z.add_0_r, wrap32_small; done.
  - rewrite IH; [|apply wrap32_range|lia].
    rewrite wrap32_add_l. do 2 f_equal. lia.
Qed.

Lemma countUp_length n k : length (countUp n k) = k.
Proof. revert n. induction k as [|k IH]; intros n; simpl; [done|]. by rewrite IH. Qed.

Lemma countUp_strictlyIncreasing (n : Z) (k : nat) :
  MinInt32 ≤ n → n + Z.of_nat k ≤ 2 ^ 31 → strictlyIncreasing (countUp n k).
Proof.
  intros Hn Hk i j a b Hi Hj Hij.
  assert (Hjk : (j < k)%nat).
  { apply lookup_lt_Some in Hj. by rewrite countUp_length in Hj. }
  change (2 ^ 31) with 2147483648 in Hk.
  rewrite countUp_lookup in Hi, Hj; [|unfold MaxInt32, MinInt32 in *; lia ..].
  rewrite wrap32_small in Hi, Hj by (unfold MaxInt32, MinInt32 in *; lia).
  simplify_eq. lia.
Qed.

Lemma assignedIDs_app (l1 l2 : list Action) :
  assignedIDs (l1 ++ l2) = assignedIDs l1 ++ assignedIDs l2.
Proof. unfold assignedIDs. apply omap_app. Qed.

Lemma processTerminations_ids responses : ∀ rm,
  assignedIDs (logOf (processTerminations responses rm)) = [] ∧
  nextRequestID (managerOf (processTerminations responses rm)) = nextRequestID rm.
Proof.
  induction responses as [|r rest IH]; intros rm; [done|].
  rewrite processTerminations_cons, processTermination_run.
  destruct (IsTerminalResponseCode (status r)).
  - destruct (IsTerminalFailureCode (status r)).
    + destruct (inProgressRequestStatuses rm !! requestID r) as [st|]; [|done].
      specialize (IH (withoutStatus (requestID r) rm)).
      destruct (processTerminations rest _) as [[t rm'] out].
      unfold logOf, managerOf in *; simpl in *. done.
    + specialize (IH (withoutStatus (requestID r) rm)).
      destruct (processTerminations rest _) as [[t rm'] out].
      unfold logOf, managerOf in *; simpl in *. done.
  - specialize (IH rm). destruct (processTerminations rest rm) as [[t rm'] out].
    exact IH.
Qed.

(** A new request takes the counter's value as its id and advances the
    counter, with [int32] wrap-around; no other message touches it.  A
    new request is also always handled to the end. *)
Lemma handle_ids (message : requestManagerMessage) (rm : RequestManager) :
  assignedIDs (logOf (handle message rm)) =
    (if isNewRequest message then [nextRequestID rm] else []) ∧
  nextRequestID (managerOf (handle message rm)) =
    (if isNewRequest message then wrap32 (nextRequestID rm + 1)
     else nextRequestID rm) ∧
  (isNewRequest message = true → outcomeOf (handle message rm) = Value tt).
Proof.
  destruct message as [to sel | i | from responses blks | i]; simpl.
  - unfold handleNewRequest, setupRequest. rewrite bind_run. simpl.
    destruct (EncodeNode sel) as [selectorBytes | err]; [|done].
    destruct (DecodeSelectorSpec sel) as [[root s] | err]; done.
  - unfold handleCancelRequest. rewrite bind_run. unfold lookupStatus.
    destruct (inProgressRequestStatuses rm !! i); done.
  - rewrite handleProcessResponse_run. simpl.
    pose proof (processTerminations_ids
                  (filterResponsesForPeer rm responses from) rm) as [Hids Hnext].
    destruct (processTerminations _ rm) as [[t rm'] out].
    unfold logOf, managerOf in *; simpl in *. done.
  - done.
Qed.

Lemma run_cons (message : requestManagerMessage) rest rm :
  run (message :: rest) rm =
  match handle message rm with
  | (t1, rm1, Halted h) => (t1, rm1, Halted h)
  | (t1, rm1, Value _) =>
      match run rest rm1 with (t2, rm2, b) => (t1 ++ t2, rm2, b) end
  end.
Proof. reflexivity. Qed.

(** The ids given out by a run are successive values of the counter. *)
Lemma run_ids (messages : list requestManagerMessage) : ∀ rm,
  ∃ k, (k ≤ newRequests messages)%nat ∧
       assignedIDs (logOf (run messages rm)) = countUp (nextRequestID rm) k.
Proof.
  induction messages as [|m rest IH]; intros rm.
  - exists 0%nat. done.
  - rewrite run_cons. destruct (handle_ids m rm) as (Hids & Hnext & Hval).
    destruct (handle m rm) as [[t1 rm1] out1].
    unfold logOf, managerOf, outcomeOf in *; simpl in *.
    unfold newRequests. destruct (isNewRequest m) eqn:Hnew.
    + rewrite filter_cons_True by done. rewrite Hval by done.
      destruct (IH rm1) as (k & Hk & Hrest).
      destruct (run rest rm1) as [[t2 rm2] out2].
      unfold logOf in *; simpl in *.
      exists (S k). split; [unfold newRequests in Hk; lia|].
      rewrite assignedIDs_app, Hids, Hrest, Hnext. done.
    + rewrite filter_cons_False by (rewrite Hnew; done).
      destruct out1 as [[]|h].
      * destruct (IH rm1) as (k & Hk & Hrest).
        destruct (run rest rm1) as [[t2 rm2] out2].
        unfold logOf in *; simpl in *.
        exists k. split; [done|].
        rewrite assignedIDs_app, Hids, Hrest, Hnext. done.
      * exists 0%nat. split; [lia|]. simpl. done.
Qed.

(** While the counter stays below 2^31 its values are the naturals. *)
Lemma countUp_seq (k : nat) : ∀ n : nat,
  Z.of_nat n + Z.of_nat k ≤ 2 ^ 31 →
  countUp (Z.of_nat n) k = Z.of_nat <$> seq n k.
Proof.
  change (2 ^ 31) with 2147483648.
  induction k as [|k IH]; intros n Hn; [done|].
  cbn [countUp seq fmap list_fmap]. f_equal.
  destruct k as [|k]; [done|].
  rewrite wrap32_small by (unfold MinInt32, MaxInt32; lia).
  replace (Z.of_nat n + 1) with (Z.of_nat (S n)) by lia.
  apply IH. lia.
Qed.

(** A run that handles all its messages gives an id to every new
    request among them. *)
Lemma run_ids_complete (messages : list requestManagerMessage) : ∀ rm,
  outcomeOf (run messages rm) = Value tt →
  length (assignedIDs (logOf (run messages rm))) = newRequests messages.
Proof.
  induction messages as [|m rest IH]; intros rm; [done|].
  rewrite run_cons. destruct (handle_ids m rm) as (Hids & _ & _).
  destruct (handle m rm) as [[t1 rm1] out1].
  destruct out1 as [[]|h]; [|discriminate].
  specialize (IH rm1). destruct (run rest rm1) as [[t2 rm2] out2].
  unfold logOf, outcomeOf in *; simpl in *. intros Hout.
  rewrite assignedIDs_app, length_app, Hids, IH by done.
  unfold newRequests. destruct (isNewRequest m) eqn:Hnew.
  - by rewrite filter_cons_True by done.
  - by rewrite filter_cons_False by (rewrite Hnew; done).
Qed.

(** C9, amended.  Over a run of the event loop of a new manager that
    receives at most 2^31 new-request messages, the ids given to these
    requests are 0, 1, 2, ... in this order, one for each new-request
    message handled (for each one received, when the loop handles all
    its messages); so they are strictly increasing: each one is greater
    than every id given out before it. *)
Theorem request_ids_strictly_increase (messages : list requestManagerMessage) :
  Z.of_nat (newRequests messages) ≤ 2 ^ 31 →
  let ids := assignedIDs (logOf (run messages New)) in
  (∃ k, (k ≤ newRequests messages)%nat ∧
        ids = Z.of_nat <$> seq 0 k ∧
        (outcomeOf (run messages New) = Value tt → k = newRequests messages)) ∧
  strictlyIncreasing ids.
Proof.
  intros Hcount ids.
  destruct (run_ids messages New) as (k & Hk & Hids). split.
  - exists k. split; [done|]. split.
    + unfold ids. rewrite Hids. apply (countUp_seq k 0). simpl. lia.
    + intros Hout. apply run_ids_complete in Hout.
      rewrite Hids, countUp_length in Hout. done.
  - unfold ids. rewrite Hids.
    apply countUp_strictlyIncreasing; simpl; unfold MinInt32; lia.
Qed.

(** After [MaxInt32] come [MinInt32]: a run of new requests alone gives
    out the wrapped values of the counter. *)
Lemma run_new_requests_ids (to : peerID) (sel : Node) (k : nat) : ∀ rm,
  assignedIDs (logOf (run (replicate k (newRequestMessage to sel)) rm)) =
  countUp (nextRequestID rm) k.
Proof.
  induction k as [|k IH]; intros rm; [done|].
  cbn [replicate]. rewrite run_cons.
  destruct (handle_ids (newRequestMessage to sel) rm) as (Hids & Hnext & Hval).
  destruct (handle (newRequestMessage to sel) rm) as [[t1 rm1] out1].
  unfold logOf, managerOf, outcomeOf in *; simpl in Hids, Hnext, Hval.
  rewrite Hval by done. specialize (IH rm1).
  destruct (run _ rm1) as [[t2 rm2] out2]. unfold logOf in *; simpl in *.
  rewrite assignedIDs_app, Hids, IH, Hnext. done.
Qed.

Lemma ids_wrap_after (to : peerID) (sel : Node) (k : nat) :
  Z.of_nat k = 2147483649 →
  ¬ strictlyIncreasing
      (assignedIDs (logOf (run (replicate k (newRequestMessage to sel)) New))).
Proof.
  intros Hk Hinc. rewrite run_new_requests_ids in Hinc. simpl in Hinc.
  assert (Hlast : countUp 0 k !! Z.to_nat 2147483647 = Some MaxInt32).
  { rewrite countUp_lookup; [|unfold MinInt32, MaxInt32; lia|lia].
    rewrite Z2Nat.id by lia. reflexivity. }
  assert (Hnext : countUp 0 k !! Z.to_nat 2147483648 = Some MinInt32).
  { rewrite countUp_lookup; [|unfold MinInt32, MaxInt32; lia|lia].
    rewrite Z2Nat.id by lia. reflexivity. }
  specialize (Hinc _ _ _ _ Hlast Hnext). unfold MaxInt32, MinInt32 in Hinc. lia.
Qed.

End RequestIDs.

Section RequestIDsSamples.
Import Message RequestManager.

(** C9, as the claim has it, fails: the id is an [int32], and the
    2^31 + 1 st new request of a process gets [MinInt32], after
    [MaxInt32]. *)
Lemma request_ids_wrap_around :
  ¬ strictlyIncreasing
      (assignedIDs
         (logOf (@run bytesCollaborators
                   (replicate (Z.to_nat 2147483649)
                      (@newRequestMessage bytesCollaborators "alice" [x01]))
                   New))).
Proof.
  apply (@ids_wrap_after bytesCollaborators). apply Z2Nat.id. lia.
Qed.

Lemma request_ids_strictly_increase_witness :
  assignedIDs (logOf (@run bytesCollaborators threeRequests New)) = [0; 1; 2] ∧
  strictlyIncreasing
    (assignedIDs (logOf (@run bytesCollaborators threeRequests New))).
Proof.
  destruct (@request_ids_strictly_increase bytesCollaborators threeRequests)
    as [(k & _ & Hids & Hall) Hinc]; [vm_compute; discriminate|].
  split; [|exact Hinc].
  rewrite Hids, Hall by reflexivity. reflexivity.
Defined.

End RequestIDsSamples.

(** * Further properties of the code *)

(** ** The message builder *)
Section MessageBuilder.
Import Message.
Context `{CidLib}.

(** X1.  [IsTerminalSuccessCode] accepts exactly 20 and 21,
    [IsTerminalResponseCode] exactly 20, 21 and 31 to 34, and no code
    is both a success and a failure. *)
Theorem terminal_code_classes (s : GraphSyncResponseStatusCode) :
  (IsTerminalSuccessCode s = true ↔ s ∈ [20; 21]) ∧
  (IsTerminalResponseCode s = true ↔ s ∈ [20; 21; 31; 32; 33; 34]) ∧
  ¬ (IsTerminalSuccessCode s = true ∧ IsTerminalFailureCode s = true).
Proof.
  rewrite IsTerminalSuccessCode_iff, IsTerminalResponseCode_iff,
    IsTerminalFailureCode_iff, !elem_of_cons, !elem_of_nil. lia.
Qed.

Lemma Empty_iff (g : graphSyncMessage) :
  Empty g = true ↔ requests g = ∅ ∧ responses g = ∅ ∧ blocks g = ∅.
Proof.
  unfold Empty.
  rewrite !andb_true_iff, !bool_decide_eq_true, !map_size_empty_iff. tauto.
Qed.

Lemma Empty_adding (g : graphSyncMessage) (a : Adding) : Empty (adding g a) = false.
Proof.
  apply not_true_is_false. rewrite Empty_iff. destruct a; simpl;
    intros (H1 & H2 & H3);
    first [ exact (insert_non_empty _ _ _ H1)
          | exact (insert_non_empty _ _ _ H2)
          | exact (insert_non_empty _ _ _ H3) ].
Qed.

(** X2.  [Empty] answers true exactly when the message holds no
    request, no response and no block: a new message is empty, and a
    message is not empty after any of the three [Add] methods. *)
Theorem Empty_iff_nothing_added (gsm : graphSyncMessage) :
  (Empty gsm = true ↔ requests gsm = ∅ ∧ responses gsm = ∅ ∧ blocks gsm = ∅) ∧
  Empty newMsg = true ∧
  (∀ r, Empty (AddRequest gsm r) = false) ∧
  (∀ r, Empty (AddResponse gsm r) = false) ∧
  (∀ b, Empty (AddBlock gsm b) = false).
Proof.
  split; [apply Empty_iff|]. split; [by apply Empty_iff|].
  split; [|split].
  - intros r. apply (Empty_adding gsm (AddingRequest r)).
  - intros r. apply (Empty_adding gsm (AddingResponse r)).
  - intros b. apply (Empty_adding gsm (AddingBlock b)).
Qed.

(** X3.  Within a message, entries collapse by their key: adding a
    request replaces an earlier request of the same id, and two
    requests of different ids can be added in either order; the same
    holds for responses (by request id) and blocks (by address). *)
Theorem Add_collapses_by_key (gsm : graphSyncMessage) :
  (∀ r1 r2, id r1 = id r2 →
     AddRequest (AddRequest gsm r1) r2 = AddRequest gsm r2) ∧
  (∀ r1 r2, id r1 ≠ id r2 →
     AddRequest (AddRequest gsm r1) r2 = AddRequest (AddRequest gsm r2) r1) ∧
  (∀ r1 r2, requestID r1 = requestID r2 →
     AddResponse (AddResponse gsm r1) r2 = AddResponse gsm r2) ∧
  (∀ r1 r2, requestID r1 ≠ requestID r2 →
     AddResponse (AddResponse gsm r1) r2 = AddResponse (AddResponse gsm r2) r1) ∧
  (∀ b1 b2, blockCid b1 = blockCid b2 →
     AddBlock (AddBlock gsm b1) b2 = AddBlock gsm b2) ∧
  (∀ b1 b2, blockCid b1 ≠ blockCid b2 →
     AddBlock (AddBlock gsm b1) b2 = AddBlock (AddBlock gsm b2) b1).
Proof.
  unfold AddRequest, AddResponse, AddBlock; simpl.
  repeat split; intros x1 x2 Hk; f_equal;
    first [ rewrite Hk; apply insert_insert_eq
          | apply insert_insert_ne; congruence ].
Qed.

Lemma keyed_adding (g : graphSyncMessage) (a : Adding) : keyed g → keyed (adding g a).
Proof.
  destruct a; simpl;
    [apply keyed_AddRequest | apply keyed_AddResponse | apply keyed_AddBlock].
Qed.

Lemma keyed_foldl_adding (script : list Adding) : ∀ g,
  keyed g → keyed (foldl adding g script).
Proof.
  induction script as [|a script IH]; intros g Hg; [done|].
  simpl. apply IH. by apply keyed_adding.
Qed.

(** X4.  Whatever sequence of [AddRequest], [AddResponse] and
    [AddBlock] calls builds a message from [newMsg], every request in
    it sits under its own id, every response under its request id and
    every block under its own address; and the message is empty only
    if nothing was added. *)
Theorem built_message_keyed (script : list Adding) :
  keyed (built script) ∧ (Empty (built script) = true ↔ script = []).
Proof.
  split.
  - apply keyed_foldl_adding, keyed_newMsg.
  - split.
    + destruct script as [|a script _] using rev_ind; [done|].
      unfold built. rewrite foldl_snoc, Empty_adding. discriminate.
    + intros ->. by apply Empty_iff.
Qed.

(** An enumeration of a keyed map lists every entry once. *)
Lemma range_entries_once `{Countable K} {V} (key : V → K) (m : gmap K V)
    (l : list V) :
  (∀ k v, m !! k = Some v → key v = k) → rangeOver m l →
  NoDup (key <$> l) ∧ length l = size m ∧ ∀ v, v ∈ l ↔ m !! key v = Some v.
Proof.
  intros Hkey Hl. unfold rangeOver in Hl.
  assert (Hkeys : key <$> (map_to_list m).*2 = (map_to_list m).*1).
  { rewrite <- list_fmap_compose. apply list_fmap_ext.
    intros i [k v] Hi; simpl.
    apply list_elem_of_lookup_2, elem_of_map_to_list in Hi. eauto. }
  split; [|split].
  - rewrite Hl, Hkeys. apply NoDup_fst_map_to_list.
  - by rewrite Hl, length_fmap, length_map_to_list.
  - intros v. rewrite Hl, list_elem_of_fmap. split.
    + intros ([k v'] & -> & Hin). apply elem_of_map_to_list in Hin.
      simpl. by rewrite (Hkey _ _ Hin).
    + intros Hv. exists (key v, v). split; [done|].
      by apply elem_of_map_to_list.
Qed.

(** X5.  The accessors [Requests], [Responses] and [Blocks] of a
    message built by the [Add] methods return every stored entry
    exactly once: as many elements as the map has entries, pairwise
    distinct keys, and an element is returned exactly when it is the
    entry stored under its key. *)
Theorem accessors_list_entries_once (gsm : graphSyncMessage) :
  keyed gsm →
  (NoDup (id <$> Requests gsm) ∧
   length (Requests gsm) = size (requests gsm) ∧
   ∀ r, r ∈ Requests gsm ↔ requests gsm !! id r = Some r) ∧
  (NoDup (requestID <$> Responses gsm) ∧
   length (Responses gsm) = size (responses gsm) ∧
   ∀ r, r ∈ Responses gsm ↔ responses gsm !! requestID r = Some r) ∧
  (NoDup (blockCid <$> Blocks gsm) ∧
   length (Blocks gsm) = size (blocks gsm) ∧
   ∀ b, b ∈ Blocks gsm ↔ blocks gsm !! blockCid b = Some b).
Proof.
  intros (K1 & K2 & K3). split; [|split].
  - apply (range_entries_once id (requests gsm)); [exact K1 | unfold rangeOver; reflexivity].
  - apply (range_entries_once requestID (responses gsm)); [exact K2 | unfold rangeOver; reflexivity].
  - apply (range_entries_once blockCid (blocks gsm)); [exact K3 | unfold rangeOver; reflexivity].
Qed.

(** X6.  Whatever order [ToProto] ranges over the maps in, the protobuf
    message has one request record per request of the message, one
    response record per response and one block record per block, and
    no two request records (or response records) share an id. *)
Theorem ToProto_one_record_per_entry (gsm : graphSyncMessage) (pbm : pb.Message) :
  keyed gsm → ToProtoMayReturn gsm pbm →
  length (pb.Requests pbm) = size (requests gsm) ∧
  length (pb.Responses pbm) = size (responses gsm) ∧
  length (pb.Data pbm) = size (blocks gsm) ∧
  NoDup (pb.Request_Id <$> pb.Requests pbm) ∧
  NoDup (pb.Response_Id <$> pb.Responses pbm).
Proof.
  intros (K1 & K2 & K3) (reqs & resps & blks & Hr & Hs & Hb & ->); simpl.
  destruct (range_entries_once id _ _ K1 Hr) as (Hnd1 & Hl1 & _).
  destruct (range_entries_once requestID _ _ K2 Hs) as (Hnd2 & Hl2 & _).
  destruct (range_entries_once blockCid _ _ K3 Hb) as (_ & Hl3 & _).
  rewrite !length_fmap, <- !list_fmap_compose.
  repeat split; done.
Qed.

End MessageBuilder.

(** ** The decoder on arbitrary protobuf messages *)
Section Decoder.
Import Message.
Context `{CidLib}.

(** Stores in sequence: a key holds what the last store under it put
    there. *)
Lemma foldl_insert_lookup `{Countable K} {X V} (f : X → K) (g : X → V)
    (l : list X) (m0 : gmap K V) (k : K) :
  foldl (λ m x, <[f x := g x]> m) m0 l !! k =
  match last (filter (λ x, f x = k) l) with
  | Some x => Some (g x)
  | None => m0 !! k
  end.
Proof.
  induction l as [|x l IH] using rev_ind; [done|].
  rewrite foldl_snoc, filter_app, lookup_insert. case_decide as Hk.
  - rewrite filter_cons_True, filter_nil by done. by rewrite last_snoc.
  - rewrite filter_cons_False, filter_nil, app_nil_r by done. exact IH.
Qed.

Lemma foldl_requestFromProto (l : list pb.Message_Request) : ∀ g,
  foldl (λ g req, AddRequest g
           (newRequest (pb.Request_Id req) (pb.Request_Selector req)
              (pb.Request_Priority req) (pb.Request_Cancel req))) g l =
  {| requests := foldl (λ m req, <[pb.Request_Id req := requestFromProto req]> m)
                   (requests g) l;
     responses := responses g; blocks := blocks g |}.
Proof.
  induction l as [|req l IH]; intros g; [by destruct g|].
  cbn [foldl]. by rewrite IH.
Qed.

Lemma foldl_responseFromProto (l : list pb.Message_Response) : ∀ g,
  foldl (λ g res, AddResponse g
           (NewResponse (pb.Response_Id res) (pb.Response_Status res)
              (pb.Response_Extra res))) g l =
  {| requests := requests g;
     responses := foldl (λ m res, <[pb.Response_Id res := responseFromProto res]> m)
                    (responses g) l;
     blocks := blocks g |}.
Proof.
  induction l as [|res l IH]; intros g; [by destruct g|].
  cbn [foldl]. by rewrite IH.
Qed.

Lemma addProtoBlocks_is_Some (data : list pb.Message_Block) : ∀ g,
  is_Some (addProtoBlocks g data) ↔ Forall blockDecodable data.
Proof.
  induction data as [|b data IH]; intros g.
  - split; [by constructor | by eexists].
  - rewrite Forall_cons. cbn [addProtoBlocks]. unfold blockDecodable at 1.
    destruct (PrefixFromBytes (pb.Block_Prefix b)) as [pref|] eqn:Hp; simpl.
    + destruct (prefixSum pref (pb.Block_Data b)) as [c|] eqn:Hc; simpl.
      * rewrite IH. split; [|tauto]. intros Hd. split; [|done]. eauto.
      * split; [by intros [? [=]]|].
        intros [(pref' & c & [= <-] & Hc') _]. congruence.
    + split; [by intros [? [=]]|]. by intros [(pref' & c & [=] & _) _].
Qed.

Lemma addProtoBlocks_Some (data : list pb.Message_Block) : ∀ g g',
  addProtoBlocks g data = Some g' →
  requests g' = requests g ∧ responses g' = responses g ∧
  ∀ c b, blocks g' !! c = Some b →
    blocks g !! c = Some b ∨
    ∃ pblk pref, pblk ∈ data ∧
      PrefixFromBytes (pb.Block_Prefix pblk) = Some pref ∧
      prefixSum pref (pb.Block_Data pblk) = Some c ∧
      RawData b = pb.Block_Data pblk ∧ blockCid b = c.
Proof.
  induction data as [|pblk data IH]; intros g g'.
  - intros [= <-]. eauto.
  - cbn [addProtoBlocks].
    destruct (PrefixFromBytes (pb.Block_Prefix pblk)) as [pref|] eqn:Hp;
      simpl; [|done].
    destruct (prefixSum pref (pb.Block_Data pblk)) as [c0|] eqn:Hc;
      simpl; [|done].
    intros Hrest. destruct (IH _ _ Hrest) as (Hreq & Hres & Hblk).
    split; [done|]. split; [done|].
    intros c b Hcb. destruct (Hblk c b Hcb) as [Hold | Hnew].
    + simpl in Hold. rewrite lookup_insert in Hold. case_decide as Heq.
      * injection Hold as <-. simpl in Heq. subst c0. right.
        exists pblk, pref. repeat split; try done. by left.
      * by left.
    + destruct Hnew as (pblk' & pref' & Hin & ?). right.
      exists pblk', pref'. split; [by right | done].
Qed.

Lemma newMessageFromProto_unfold (pbm : pb.Message) :
  newMessageFromProto pbm =
  addProtoBlocks
    {| requests := foldl (λ m req, <[pb.Request_Id req := requestFromProto req]> m)
                     ∅ (pb.Requests pbm);
       responses := foldl (λ m res, <[pb.Response_Id res := responseFromProto res]> m)
                      ∅ (pb.Responses pbm);
       blocks := ∅ |}
    (pb.Data pbm).
Proof.
  unfold newMessageFromProto.
  by rewrite foldl_requestFromProto, foldl_responseFromProto.
Qed.

(** X7.  [newMessageFromProto] returns an error exactly when some
    block record is not accepted by the address library (its prefix
    does not parse, or prefix and data do not sum to an address); no
    request or response record makes it fail. *)
Theorem decode_fails_only_on_blocks (pbm : pb.Message) :
  newMessageFromProto pbm = None ↔ ¬ Forall blockDecodable (pb.Data pbm).
Proof.
  rewrite newMessageFromProto_unfold, <- addProtoBlocks_is_Some.
  rewrite eq_None_not_Some. reflexivity.
Qed.

(** X8.  Every message the decoder returns is keyed like a built one,
    and each of its blocks comes from a block record of the protobuf
    message: it has that record's data, and its address is the sum of
    the record's prefix and data. *)
Theorem decoded_blocks_hash_to_their_address (pbm : pb.Message)
    (gsm : graphSyncMessage) :
  newMessageFromProto pbm = Some gsm →
  keyed gsm ∧
  ∀ c b, blocks gsm !! c = Some b →
    ∃ pblk pref, pblk ∈ pb.Data pbm ∧
      PrefixFromBytes (pb.Block_Prefix pblk) = Some pref ∧
      prefixSum pref (pb.Block_Data pblk) = Some c ∧
      RawData b = pb.Block_Data pblk ∧ blockCid b = c.
Proof.
  rewrite newMessageFromProto_unfold. intros Hdec.
  destruct (addProtoBlocks_Some _ _ _ Hdec) as (Hreq & Hres & Hblk).
  simpl in Hreq, Hres, Hblk.
  assert (Hfrom : ∀ c b, blocks gsm !! c = Some b →
            ∃ pblk pref, pblk ∈ pb.Data pbm ∧
              PrefixFromBytes (pb.Block_Prefix pblk) = Some pref ∧
              prefixSum pref (pb.Block_Data pblk) = Some c ∧
              RawData b = pb.Block_Data pblk ∧ blockCid b = c).
  { intros c b Hcb. destruct (Hblk c b Hcb) as [Hold | Hnew]; [|done].
    by rewrite lookup_empty in Hold. }
  split; [|exact Hfrom].
  split; [|split].
  - intros k r. rewrite Hreq, foldl_insert_lookup.
    destruct (last _) as [req|] eqn:Hlast; [|by rewrite lookup_empty].
    intros [= <-]. apply last_Some_elem_of, list_elem_of_filter in Hlast.
    by destruct Hlast.
  - intros k r. rewrite Hres, foldl_insert_lookup.
    destruct (last _) as [res|] eqn:Hlast; [|by rewrite lookup_empty].
    intros [= <-]. apply last_Some_elem_of, list_elem_of_filter in Hlast.
    by destruct Hlast.
  - intros c b Hcb. by destruct (Hfrom c b Hcb) as (? & ? & _ & _ & _ & _ & ?).
Qed.

(** X9.  Repeated records collapse in the decoder and the last one
    wins: the decoded message holds under id [i] the last request
    record of the protobuf message with that id (nothing if there is
    none), and likewise for responses. *)
Theorem decode_last_record_wins (pbm : pb.Message) (gsm : graphSyncMessage)
    (i : GraphSyncRequestID) :
  newMessageFromProto pbm = Some gsm →
  requests gsm !! i =
    requestFromProto <$> last (filter (λ req, pb.Request_Id req = i) (pb.Requests pbm)) ∧
  responses gsm !! i =
    responseFromProto <$>
      last (filter (λ res, pb.Response_Id res = i) (pb.Responses pbm)).
Proof.
  rewrite newMessageFromProto_unfold. intros Hdec.
  destruct (addProtoBlocks_Some _ _ _ Hdec) as (-> & -> & _). simpl.
  rewrite !foldl_insert_lookup. split.
  - destruct (last _); [done | by rewrite lookup_empty].
  - destruct (last _); [done | by rewrite lookup_empty].
Qed.

End Decoder.

Section DecoderSamples.
Import Message.

Lemma repeatedProto_decodes :
  @newMessageFromProto identityCids repeatedProto = Some repeatedDecoded.
Proof. reflexivity. Qed.

Lemma Add_collapses_by_key_witness :
  @AddRequest identityCids (AddRequest newMsg (NewRequest 7 [x01] 1)) (CancelRequest 7) =
  @AddRequest identityCids newMsg (CancelRequest 7).
Proof.
  apply (proj1 (@Add_collapses_by_key identityCids newMsg)). reflexivity.
Defined.

Lemma accessors_list_entries_once_witness :
  length (@Requests identityCids sampleMessage) =
  size (@requests identityCids sampleMessage).
Proof.
  apply (@accessors_list_entries_once identityCids sampleMessage).
  unfold sampleMessage.
  apply keyed_AddBlock, keyed_AddResponse, keyed_AddRequest, keyed_AddRequest,
    keyed_newMsg.
Defined.

Lemma ToProto_one_record_per_entry_witness :
  length (pb.Requests (@ToProto identityCids sampleMessage)) =
  size (@requests identityCids sampleMessage).
Proof.
  apply (@ToProto_one_record_per_entry identityCids sampleMessage).
  - unfold sampleMessage.
    apply keyed_AddBlock, keyed_AddResponse, keyed_AddRequest, keyed_AddRequest,
      keyed_newMsg.
  - apply ToProto_MayReturn.
Defined.

Lemma decoded_blocks_hash_to_their_address_witness :
  @keyed identityCids repeatedDecoded.
Proof.
  apply (@decoded_blocks_hash_to_their_address identityCids repeatedProto).
  reflexivity.
Defined.

Lemma decode_last_record_wins_witness :
  @requests identityCids repeatedDecoded !! 7 = Some (CancelRequest 7).
Proof.
  apply (@decode_last_record_wins identityCids repeatedProto repeatedDecoded 7).
  reflexivity.
Defined.

End DecoderSamples.

(** ** The peer manager's pool *)
Section PeerPool.
Import PeerManager.

(** X10.  [ConnectedPeers] returns the mapped peers, each once; a peer
    is among them right after [Connected] or [GetProcess] for it, and
    none is for a new manager. *)
Theorem ConnectedPeers_lists_mapped (pm : PeerManager) :
  NoDup (ConnectedPeers pm) ∧
  (∀ p, p ∈ ConnectedPeers pm ↔ is_Some (peerProcesses pm !! p)) ∧
  (∀ factory, ConnectedPeers (New factory) = []) ∧
  (∀ p, p ∈ ConnectedPeers (Connected pm p).1) ∧
  (∀ p, p ∈ ConnectedPeers (GetProcess pm p).1.2).
Proof.
  assert (Hin : ∀ pm0 p, p ∈ ConnectedPeers pm0 ↔
                         is_Some (peerProcesses pm0 !! p)).
  { intros pm0 p. unfold ConnectedPeers. rewrite list_elem_of_fmap. split.
    - intros ([q pqi] & -> & Hq). apply elem_of_map_to_list in Hq. eauto.
    - intros [pqi Hp]. exists (p, pqi). split; [done|].
      by apply elem_of_map_to_list. }
  split; [apply NoDup_fst_map_to_list|]. split; [apply Hin|].
  split.
  { intros factory. unfold ConnectedPeers, New; simpl.
    by rewrite map_to_list_empty. }
  split; intros p; apply Hin.
  - unfold Connected, getOrCreate.
    destruct (peerProcesses pm !! p); simpl; rewrite lookup_insert_eq; eauto.
  - unfold GetProcess, getOrCreate.
    destruct (peerProcesses pm !! p) eqn:Hp; simpl;
      [rewrite Hp | rewrite lookup_insert_eq]; eauto.
Qed.

(** X11.  A call about one peer leaves the instances of all other
    peers as they are, and [ConnectedPeers] changes nothing at all. *)
Theorem call_leaves_other_peers (pm : PeerManager) (c : Call) (p q : peerID) :
  target c = Some p → q ≠ p →
  peerProcesses (call pm c).1 !! q = peerProcesses pm !! q.
Proof.
  intros Hc Hq. rewrite call_lookup.
  destruct c as [p'|p'| |p']; simplify_eq/=; by rewrite decide_False by done.
Qed.

Lemma call_leaves_other_peers_witness :
  peerProcesses
    (call (calls (New countingFactory) [CallConnected "a"]).1
       (CallDisconnected "b")).1 !! "a" =
  peerProcesses (calls (New countingFactory) [CallConnected "a"]).1 !! "a".
Proof.
  apply (call_leaves_other_peers _ (CallDisconnected "b") "b" "a").
  - reflexivity.
  - discriminate.
Defined.

(** X12.  [GetProcess] returns the worker mapped for the peer, making
    and starting one only if the peer has none: asked again it returns
    the same worker, starts nothing and changes nothing, and it never
    changes an instance that was already mapped. *)
Theorem GetProcess_returns_mapped_worker (pm : PeerManager) (p : peerID) :
  let '(pq, pm', effs) := GetProcess pm p in
  (∃ pqi, peerProcesses pm' !! p = Some pqi ∧ process pqi = pq) ∧
  GetProcess pm' p = (pq, pm', []) ∧
  (∀ q pqi, peerProcesses pm !! q = Some pqi → peerProcesses pm' !! q = Some pqi) ∧
  effs = match peerProcesses pm !! p with
         | Some _ => []
         | None => [Startup pq]
         end.
Proof.
  unfold GetProcess, getOrCreate.
  destruct (peerProcesses pm !! p) as [pqi|] eqn:Hp; simpl.
  - rewrite Hp. repeat split; eauto.
  - rewrite lookup_insert_eq. repeat split; [eauto|].
    intros q pqi Hq. rewrite lookup_insert_ne; [done|]. congruence.
Qed.

(** X13.  With a factory that returns a new worker on every call,
    after any sequence of calls on a new manager: every worker the
    factory made was started exactly once and nothing else was
    started, no worker was shut down twice, each [Shutdown] comes after
    the [Startup] of the same worker, the workers still mapped are
    exactly those made and not yet shut down, and no two peers share a
    worker. *)
Theorem workers_started_once_and_shut_down_when_unmapped
    (factory : PeerProcessFactory) (cs : list Call) :
  freshFactory factory →
  lifecycle (calls (New factory) cs).1 (calls (New factory) cs).2.
Proof.
  intros Hfresh.
  apply (calls_lifecycle cs (New factory) [] Hfresh (lifecycle_New factory)).
Qed.

Lemma countingFactory_fresh : freshFactory countingFactory.
Proof. intros h1 p1 h2 p2 Heq. exact Heq. Qed.

Lemma workers_started_once_and_shut_down_when_unmapped_witness :
  lifecycle
    (calls (New countingFactory)
       [CallGetProcess "a"; CallConnected "b"; CallDisconnected "a";
        CallConnected "a"]).1
    (calls (New countingFactory)
       [CallGetProcess "a"; CallConnected "b"; CallDisconnected "a";
        CallConnected "a"]).2.
Proof.
  apply (workers_started_once_and_shut_down_when_unmapped countingFactory).
  exact countingFactory_fresh.
Defined.

(** The factory matters: one that hands the same worker to two peers
    gets it started twice. *)
Lemma shared_worker_started_twice :
  (calls (New sharingFactory) [CallConnected "a"; CallConnected "b"]).2 =
  [Startup 0%nat; Startup 0%nat].
Proof. reflexivity. Qed.

Lemma connects_count (n : nat) : ∀ pm p r pq,
  peerProcesses pm !! p = Some {| refcnt := r; process := pq |} →
  0 ≤ r → r + Z.of_nat n < 2 ^ 63 →
  calls pm (replicate n (CallConnected p)) =
  ({| peerProcesses :=
        <[p := {| refcnt := r + Z.of_nat n; process := pq |}]> (peerProcesses pm);
      createPeerProcess := createPeerProcess pm;
      factoryCalls := factoryCalls pm |}, []).
Proof.
  induction n as [|n IH]; intros pm p r pq Hp Hr Hn.
  - simpl. rewrite Z.add_0_r, insert_id by done. by destruct pm.
  - cbn [replicate calls call]. unfold Connected, getOrCreate. rewrite Hp. simpl.
    rewrite wrapInt_small by lia.
    rewrite (IH _ p (r + 1) pq); simpl; [|apply lookup_insert_eq|lia|lia].
    rewrite insert_insert_eq.
    replace (r + 1 + Z.of_nat n) with (r + Z.pos (Pos.of_succ_nat n)) by lia.
    done.
Qed.

Lemma disconnects_count (k : nat) : ∀ pm p r pq,
  peerProcesses pm !! p = Some {| refcnt := r; process := pq |} →
  Z.of_nat k < r < 2 ^ 63 →
  calls pm (replicate k (CallDisconnected p)) =
  ({| peerProcesses :=
        <[p := {| refcnt := r - Z.of_nat k; process := pq |}]> (peerProcesses pm);
      createPeerProcess := createPeerProcess pm;
      factoryCalls := factoryCalls pm |}, []).
Proof.
  induction k as [|k IH]; intros pm p r pq Hp Hr.
  - simpl. rewrite Z.sub_0_r, insert_id by done. by destruct pm.
  - cbn [replicate calls call]. unfold Disconnected. rewrite Hp. simpl.
    rewrite wrapInt_small by lia.
    assert ((0 <? r - 1) = true) as -> by (apply Z.ltb_lt; lia).
    rewrite (IH _ p (r - 1) pq); simpl; [|apply lookup_insert_eq|lia].
    rewrite insert_insert_eq.
    replace (r - 1 - Z.of_nat k) with (r - Z.pos (Pos.of_succ_nat k)) by lia.
    done.
Qed.

(** X14.  For a peer the manager does not know, [n] calls of
    [Connected] (at least one, fewer than 2^63) start one worker and
    leave the peer mapped with count [n]; [k < n] calls of
    [Disconnected] after them leave it mapped with count [n - k] and
    shut nothing down; the [n]-th [Disconnected] removes the entry and
    shuts that worker down, leaving the map as it was before. *)
Theorem balanced_connects_and_disconnects (pm : PeerManager) (p : peerID)
    (n k : nat) :
  peerProcesses pm !! p = None → (0 < n)%nat → Z.of_nat n < 2 ^ 63 → (k < n)%nat →
  let pq := createPeerProcess pm (factoryCalls pm) p in
  calls pm (replicate n (CallConnected p) ++ replicate k (CallDisconnected p)) =
    ({| peerProcesses :=
          <[p := {| refcnt := Z.of_nat n - Z.of_nat k; process := pq |}]>
            (peerProcesses pm);
        createPeerProcess := createPeerProcess pm;
        factoryCalls := factoryCalls pm ++ [p] |}, [Startup pq]) ∧
  calls pm (replicate n (CallConnected p) ++ replicate n (CallDisconnected p)) =
    ({| peerProcesses := peerProcesses pm;
        createPeerProcess := createPeerProcess pm;
        factoryCalls := factoryCalls pm ++ [p] |},
     [Startup pq; Shutdown pq]).
Proof.
  intros Hp Hn0 Hn Hk pq.
  assert (Hconn : calls pm (replicate n (CallConnected p)) =
            ({| peerProcesses :=
                  <[p := {| refcnt := Z.of_nat n; process := pq |}]>
                    (peerProcesses pm);
                createPeerProcess := createPeerProcess pm;
                factoryCalls := factoryCalls pm ++ [p] |}, [Startup pq])).
  { destruct n as [|n]; [lia|].
    cbn [replicate calls call]. unfold Connected, getOrCreate. rewrite Hp. simpl.
    rewrite wrapInt_small by lia.
    rewrite (connects_count n _ p 1 pq); simpl; [|apply lookup_insert_eq|lia|lia].
    rewrite !insert_insert_eq.
    replace (1 + Z.of_nat n) with (Z.pos (Pos.of_succ_nat n)) by lia. done. }
  split.
  - rewrite calls_app, Hconn. simpl.
    rewrite (disconnects_count k _ p (Z.of_nat n) pq); simpl;
      [|apply lookup_insert_eq|lia].
    by rewrite insert_insert_eq.
  - destruct n as [|n]; [lia|].
    replace (replicate (S n) (CallDisconnected p))
      with (replicate n (CallDisconnected p) ++ [CallDisconnected p])
      by (by rewrite <- replicate_cons_app).
    rewrite app_assoc, calls_app, calls_app, Hconn. simpl.
    rewrite (disconnects_count n _ p (Z.of_nat (S n)) pq); simpl;
      [|apply lookup_insert_eq|lia].
    unfold Disconnected; simpl. rewrite insert_insert_eq, lookup_insert_eq. simpl.
    rewrite wrapInt_small by lia.
    assert ((0 <? Z.of_nat (S n) - Z.of_nat n - 1) = false) as ->
      by (apply Z.ltb_ge; lia).
    simpl. by rewrite delete_insert_id.
Qed.

Lemma balanced_connects_and_disconnects_witness :
  calls (New countingFactory)
    (replicate 3 (CallConnected "a") ++ replicate 3 (CallDisconnected "a")) =
  ({| peerProcesses := ∅; createPeerProcess := countingFactory;
      factoryCalls := ["a"] |},
   [Startup 0%nat; Shutdown 0%nat]).
Proof.
  apply (balanced_connects_and_disconnects (New countingFactory) "a" 3 1);
    [reflexivity | lia ..].
Defined.

End PeerPool.

(** ** Requests through the event loop *)
Section RequestLife.
Import Message RequestManager.
Context `{Collaborators}.

(** X15.  With a selector the bridge accepts, [SendRequest] posts
    exactly one new-request message for that peer and selector and
    waits for the loop; if instead the manager or the caller is done,
    it posts nothing and returns two streams that are closed and
    empty. *)
Theorem SendRequest_valid_selector (to : peerID) (node : Node) :
  ValidateSelectorSpec node = [] →
  SendRequest MessageSent to node = Some (Waiting [newRequestMessage to node]) ∧
  SendRequest ManagerDone to node = Some (Returned [] closedEmpty closedEmpty) ∧
  SendRequest CallerDone to node = Some (Returned [] closedEmpty closedEmpty) ∧
  recv (closedEmpty : chan ResponseProgress) = Some (None, closedEmpty) ∧
  recv (closedEmpty : chan string) = Some (None, closedEmpty).
Proof.
  intros Hvalid. unfold SendRequest. rewrite Hvalid. simpl. done.
Qed.

(** X16.  A new request whose selector the bridge encodes and decodes:
    the handler gives it the counter's value as id, records it as in
    progress with its peer, tells the loader, only then hands the
    request frame (the encoded selector, priority [MaxInt32], no cancel
    flag) to the peer handler, starts the traversal, and replies with
    two open streams. *)
Theorem new_request_registered_then_sent (rm : RequestManager) (to : peerID)
    (node root : Node) (sel : Selector) (selectorBytes : bytes) :
  EncodeNode node = inl selectorBytes →
  DecodeSelectorSpec node = inl (root, sel) →
  let i := nextRequestID rm in
  handle (newRequestMessage to node) rm =
  ([StoreStatus i {| made := i; p := to |};
    StartRequest i;
    PeerHandlerSendRequest to
      {| selector := selectorBytes; priority := 2147483647; id := i;
         isCancel := false |};
    GoTraverse i root sel;
    ReplyInProgress {| inProgressID := i; incoming := make 0;
                       incomingError := make 0 |}],
   {| nextRequestID := wrap32 (i + 1);
      inProgressRequestStatuses :=
        <[i := {| made := i; p := to |}]> (inProgressRequestStatuses rm) |},
   Value tt).
Proof.
  intros Henc Hdec i. simpl. unfold handleNewRequest, setupRequest.
  rewrite bind_run. simpl. rewrite Henc, Hdec. reflexivity.
Qed.

(** X17.  A new request whose selector the bridge cannot encode, or
    cannot decode: the handler still uses up an id, but records
    nothing as in progress, tells the loader nothing and sends nothing
    to the peer; its only action is the reply, whose progress stream is
    closed and empty and whose error stream holds the bridge's error
    and is closed. *)
Theorem new_request_with_bad_selector (rm : RequestManager) (to : peerID)
    (node : Node) (err : string) :
  EncodeNode node = inr err ∨
  ((∃ selectorBytes, EncodeNode node = inl selectorBytes) ∧
   DecodeSelectorSpec node = inr err) →
  handle (newRequestMessage to node) rm =
  ([ReplyInProgress
      {| inProgressID := nextRequestID rm; incoming := closedEmpty;
         incomingError := {| buffer := [err]; capacity := 1; closed := true |} |}],
   {| nextRequestID := wrap32 (nextRequestID rm + 1);
      inProgressRequestStatuses := inProgressRequestStatuses rm |},
   Value tt).
Proof.
  intros Hbad. simpl. unfold handleNewRequest, setupRequest.
  rewrite bind_run. simpl.
  destruct Hbad as [Henc | [[selectorBytes Henc] Hdec]].
  - rewrite Henc. reflexivity.
  - rewrite Henc, Hdec. reflexivity.
Qed.

Lemma failure_is_terminal (s : GraphSyncResponseStatusCode) :
  IsTerminalFailureCode s = true → IsTerminalResponseCode s = true.
Proof. unfold IsTerminalResponseCode. intros ->. apply orb_true_r. Qed.

Lemma generateResponseErrorFromStatus_failure (s : GraphSyncResponseStatusCode) :
  IsTerminalFailureCode s = true →
  generateResponseErrorFromStatus s ∈ failureErrors.
Proof.
  rewrite IsTerminalFailureCode_iff. intros Hs.
  assert (Hcases : s = 31 ∨ s = 32 ∨ s = 33 ∨ s = 34) by lia. clear Hs.
  unfold failureErrors.
  destruct Hcases as [Hs | [Hs | [Hs | Hs]]]; rewrite Hs; set_solver.
Qed.

(** A batch that names each request once, all in progress with the
    sending peer: what [processTerminations] does with it. *)
Lemma processTerminations_distinct (from : peerID) (l : list GraphSyncResponse) :
  ∀ rm,
  NoDup (requestID <$> l) →
  (∀ r, r ∈ l → ∃ st, inProgressRequestStatuses rm !! requestID r = Some st ∧
                      p st = from) →
  outcomeOf (processTerminations l rm) = Value tt ∧
  completedIDs (logOf (processTerminations l rm)) = requestID <$> terminal l ∧
  (publishedErrors (logOf (processTerminations l rm))).*2 =
    (λ r, generateResponseErrorFromStatus (status r)) <$> failed l ∧
  Forall (λ st, p st = from) (publishedErrors (logOf (processTerminations l rm))).*1 ∧
  sentFrames (logOf (processTerminations l rm)) = [] ∧
  (∀ k, inProgressRequestStatuses (managerOf (processTerminations l rm)) !! k =
        if decide (k ∈ requestID <$> terminal l) then None
        else inProgressRequestStatuses rm !! k).
Proof.
  induction l as [|r rest IH]; intros rm Hnd Hin.
  { repeat split; try done.
    all: intros k; rewrite decide_False; [done|].
    all: unfold terminal; rewrite filter_nil; apply not_elem_of_nil. }
  rewrite fmap_cons, NoDup_cons in Hnd. destruct Hnd as [Hr Hnd].
  destruct (Hin r) as (st & Hst & Hp); [by left|].
  assert (Hrest : ∀ rm', (∀ k, k ≠ requestID r →
              inProgressRequestStatuses rm' !! k = inProgressRequestStatuses rm !! k) →
            ∀ r', r' ∈ rest →
              ∃ st, inProgressRequestStatuses rm' !! requestID r' = Some st ∧
                    p st = from).
  { intros rm' Hrm' r' Hr'. rewrite Hrm'; [apply Hin; by right|].
    intros Heq. apply Hr. rewrite <- Heq. apply list_elem_of_fmap. eauto. }
  assert (Hnotin : requestID r ∉ requestID <$> terminal rest).
  { intros Hk. apply Hr. apply list_elem_of_fmap in Hk as (r' & -> & Hk).
    apply list_elem_of_filter in Hk as [_ Hk]. apply list_elem_of_fmap. eauto. }
  rewrite processTerminations_cons, processTermination_run.
  unfold terminal, failed.
  destruct (IsTerminalResponseCode (status r)) eqn:HT.
  - rewrite (filter_cons_True (λ x, IsTerminalResponseCode (status x) = true) r rest HT).
    assert (Hdel : ∀ k, k ≠ requestID r →
              inProgressRequestStatuses (withoutStatus (requestID r) rm) !! k =
              inProgressRequestStatuses rm !! k).
    { intros k Hk. simpl. by rewrite lookup_delete_ne. }
    destruct (IH (withoutStatus (requestID r) rm) Hnd (Hrest _ Hdel))
      as (Hout & Hcompl & Herr & Hto & Hsent & Hmap).
    assert (Hmap' : ∀ rm' : RequestManager,
              (∀ k, inProgressRequestStatuses rm' !! k =
                    if decide (k ∈ requestID <$> terminal rest) then None
                    else inProgressRequestStatuses
                           (withoutStatus (requestID r) rm) !! k) →
              ∀ k, inProgressRequestStatuses rm' !! k =
                   if decide (k ∈ requestID r :: (requestID <$> terminal rest))
                   then None else inProgressRequestStatuses rm !! k).
    { intros rm' Hrm' k. rewrite Hrm'. simpl.
      destruct (decide (k ∈ requestID <$> terminal rest)) as [Hin1|Hin1];
        destruct (decide (k ∈ requestID r :: (requestID <$> terminal rest)))
          as [Hin2|Hin2]; try done.
      - exfalso. apply Hin2. by right.
      - apply elem_of_cons in Hin2 as [-> | ?]; [apply lookup_delete_eq | done].
      - rewrite lookup_delete_ne; [done|]. intros <-. apply Hin2. by left. }
    destruct (IsTerminalFailureCode (status r)) eqn:HF.
    + rewrite (filter_cons_True (λ x, IsTerminalFailureCode (status x) = true) r rest HF), Hst.
      destruct (processTerminations rest _) as [[t rm'] out].
      unfold logOf, managerOf, outcomeOf in *; simpl in *.
      split; [done|]. split; [by f_equal|]. split; [by f_equal|].
      split; [by constructor|]. split; [done|]. by apply Hmap'.
    + rewrite (filter_cons_False (λ x, IsTerminalFailureCode (status x) = true) r rest) by (rewrite HF; done).
      destruct (processTerminations rest _) as [[t rm'] out].
      unfold logOf, managerOf, outcomeOf in *; simpl in *.
      split; [done|]. split; [by f_equal|]. split; [done|].
      split; [done|]. split; [done|]. by apply Hmap'.
  - rewrite (filter_cons_False (λ x, IsTerminalResponseCode (status x) = true) r rest) by (rewrite HT; done).
    assert (HF : IsTerminalFailureCode (status r) = false).
    { destruct (IsTerminalFailureCode (status r)) eqn:HF; [|done].
      apply failure_is_terminal in HF. congruence. }
    rewrite (filter_cons_False (λ x, IsTerminalFailureCode (status x) = true) r rest) by (rewrite HF; done).
    destruct (IH rm Hnd (Hrest rm (λ _ _, eq_refl)))
      as (Hout & Hcompl & Herr & Hto & Hsent & Hmap).
    destruct (processTerminations rest rm) as [[t rm'] out].
    unfold logOf, managerOf, outcomeOf in *; simpl in *. done.
Qed.

Lemma filterResponsesForPeer_entries rm responses from r :
  r ∈ filterResponsesForPeer rm responses from →
  ∃ st, inProgressRequestStatuses rm !! requestID r = Some st ∧ p st = from.
Proof. intros Hr. by apply elem_of_filterResponsesForPeer in Hr as [_ ?]. Qed.

(** X18.  A batch that names every request at most once (as the
    responses of one wire message do) is always handled to the end,
    and afterwards exactly the requests that the peer terminated are
    gone from the in-progress map: an id is removed if the batch has a
    terminal response for it that passed the peer filter, and every
    other entry is as before. *)
Theorem batch_removes_terminated_requests (rm : RequestManager) (from : peerID)
    (responses : list GraphSyncResponse) (blks : list BlockT) :
  NoDup (requestID <$> responses) →
  let result := handle (processResponseMessage from responses blks) rm in
  let ended := requestID <$> terminal (filterResponsesForPeer rm responses from) in
  outcomeOf result = Value tt ∧
  nextRequestID (managerOf result) = nextRequestID rm ∧
  ∀ k, inProgressRequestStatuses (managerOf result) !! k =
       if decide (k ∈ ended) then None else inProgressRequestStatuses rm !! k.
Proof.
  intros Hnd. simpl. rewrite handleProcessResponse_run. simpl.
  destruct (processTerminations_distinct from
              (filterResponsesForPeer rm responses from) rm
              (filterResponsesForPeer_NoDup rm responses from Hnd)
              (filterResponsesForPeer_entries rm responses from))
    as (Hout & _ & _ & _ & _ & Hmap).
  destruct (processTerminations_ids (filterResponsesForPeer rm responses from) rm)
    as [_ Hnext].
  destruct (processTerminations _ rm) as [[t rm'] out].
  unfold outcomeOf, managerOf in *; simpl in *. done.
Qed.

(** X19.  For such a batch the handler calls [CompleteResponsesFor]
    once for each terminal response that passed the peer filter, in
    the order of the batch; it publishes one error for each
    terminal-failure response among them, the error of its status, and
    only to requests of the sending peer; and it hands nothing to the
    peer handler. *)
Theorem batch_completions_and_errors (rm : RequestManager) (from : peerID)
    (responses : list GraphSyncResponse) (blks : list BlockT) :
  NoDup (requestID <$> responses) →
  let log := logOf (handle (processResponseMessage from responses blks) rm) in
  let acted := filterResponsesForPeer rm responses from in
  completedIDs log = requestID <$> terminal acted ∧
  (publishedErrors log).*2 =
    (λ r, generateResponseErrorFromStatus (status r)) <$> failed acted ∧
  Forall (λ st, p st = from) (publishedErrors log).*1 ∧
  sentFrames log = [].
Proof.
  intros Hnd. simpl. rewrite handleProcessResponse_run. simpl.
  destruct (processTerminations_distinct from
              (filterResponsesForPeer rm responses from) rm
              (filterResponsesForPeer_NoDup rm responses from Hnd)
              (filterResponsesForPeer_entries rm responses from))
    as (_ & Hcompl & Herr & Hto & Hsent & _).
  destruct (processTerminations _ rm) as [[t rm'] out].
  unfold logOf in *; simpl in *. done.
Qed.

Lemma processTerminations_untouched (l : list GraphSyncResponse) : ∀ rm k,
  k ∉ requestID <$> l →
  inProgressRequestStatuses (managerOf (processTerminations l rm)) !! k =
    inProgressRequestStatuses rm !! k ∧
  k ∉ completedIDs (logOf (processTerminations l rm)).
Proof.
  induction l as [|r rest IH]; intros rm k Hk.
  { split; [done | apply not_elem_of_nil]. }
  rewrite fmap_cons, not_elem_of_cons in Hk. destruct Hk as [Hkr Hk].
  rewrite processTerminations_cons, processTermination_run.
  destruct (IsTerminalResponseCode (status r)).
  - destruct (IsTerminalFailureCode (status r)).
    + destruct (inProgressRequestStatuses rm !! requestID r) as [st|];
        [|split; [done | apply not_elem_of_nil]].
      destruct (IH (withoutStatus (requestID r) rm) k Hk) as [Hmap Hlog].
      destruct (processTerminations rest _) as [[t rm'] out].
      unfold logOf, managerOf in *; simpl in *.
      rewrite lookup_delete_ne in Hmap by done. split; [done|].
      rewrite not_elem_of_cons. done.
    + destruct (IH (withoutStatus (requestID r) rm) k Hk) as [Hmap Hlog].
      destruct (processTerminations rest _) as [[t rm'] out].
      unfold logOf, managerOf in *; simpl in *.
      rewrite lookup_delete_ne in Hmap by done. split; [done|].
      rewrite not_elem_of_cons. done.
  - destruct (IH rm k Hk) as [Hmap Hlog].
    destruct (processTerminations rest rm) as [[t rm'] out].
    unfold logOf, managerOf in *; simpl in *. done.
Qed.

(** X20.  No batch from one peer can end a request that is in progress
    with another peer: whatever responses a peer sends, an entry
    recorded for a different peer is still in the map afterwards,
    unchanged, and [CompleteResponsesFor] is not called for its id. *)
Theorem other_peer_cannot_terminate (rm : RequestManager) (from : peerID)
    (responses : list GraphSyncResponse) (blks : list BlockT)
    (i : GraphSyncRequestID) (st : inProgressRequestStatus) :
  inProgressRequestStatuses rm !! i = Some st → p st ≠ from →
  let result := handle (processResponseMessage from responses blks) rm in
  inProgressRequestStatuses (managerOf result) !! i = Some st ∧
  i ∉ completedIDs (logOf result).
Proof.
  intros Hi Hp. simpl. rewrite handleProcessResponse_run. simpl.
  assert (Hnot : i ∉ requestID <$> filterResponsesForPeer rm responses from).
  { intros Hin. apply list_elem_of_fmap in Hin as (r & -> & Hr).
    apply filterResponsesForPeer_entries in Hr as (st' & Hst' & Hp').
    rewrite Hi in Hst'. by simplify_eq. }
  destruct (processTerminations_untouched _ rm i Hnot) as [Hmap Hlog].
  destruct (processTerminations _ rm) as [[t rm'] out].
  unfold logOf, managerOf in *; simpl in *. by rewrite Hmap.
Qed.

Lemma processTerminations_published (l : list GraphSyncResponse) : ∀ rm,
  Forall (λ se, se.2 ∈ failureErrors)
    (publishedErrors (logOf (processTerminations l rm))).
Proof.
  induction l as [|r rest IH]; intros rm; [by constructor|].
  rewrite processTerminations_cons, processTermination_run.
  destruct (IsTerminalResponseCode (status r)).
  - destruct (IsTerminalFailureCode (status r)) eqn:HF.
    + destruct (inProgressRequestStatuses rm !! requestID r) as [st|];
        [|by constructor].
      specialize (IH (withoutStatus (requestID r) rm)).
      destruct (processTerminations rest _) as [[t rm'] out].
      unfold logOf in *; simpl in *. constructor; [|done].
      by apply generateResponseErrorFromStatus_failure.
    + specialize (IH (withoutStatus (requestID r) rm)).
      destruct (processTerminations rest _) as [[t rm'] out].
      unfold logOf in *; simpl in *. done.
  - specialize (IH rm). destruct (processTerminations rest rm) as [[t rm'] out].
    exact IH.
Qed.

(** X21.  Whatever message the loop handles, every error it publishes
    to a caller is one of the four "Request Failed" errors; the
    "Unknown" error of [generateResponseErrorFromStatus] is never
    published. *)
Theorem published_errors_are_failures (message : requestManagerMessage)
    (rm : RequestManager) :
  Forall (λ se, se.2 ∈ failureErrors ∧ se.2 ≠ "Unknown")
    (publishedErrors (logOf (handle message rm))).
Proof.
  assert (Hne : ∀ e, e ∈ failureErrors → e ∈ failureErrors ∧ e ≠ "Unknown").
  { intros e He. split; [done|]. intros ->. unfold failureErrors in He.
    rewrite !elem_of_cons, elem_of_nil in He.
    destruct He as [He | [He | [He | [He | []]]]]; discriminate He. }
  destruct message as [to sel | i | from responses blks | i]; simpl.
  - unfold handleNewRequest, setupRequest. rewrite bind_run. simpl.
    destruct (EncodeNode sel) as [selectorBytes | err]; [|by constructor].
    destruct (DecodeSelectorSpec sel) as [[root s] | err]; by constructor.
  - unfold handleCancelRequest. rewrite bind_run. unfold lookupStatus.
    destruct (inProgressRequestStatuses rm !! i); by constructor.
  - rewrite handleProcessResponse_run. simpl.
    pose proof (processTerminations_published
                  (filterResponsesForPeer rm responses from) rm) as Hpub.
    destruct (processTerminations _ rm) as [[t rm'] out].
    unfold logOf in *; simpl in *.
    eapply Forall_impl; [exact Hpub|]. intros se. apply Hne.
  - by constructor.
Qed.

Lemma filterResponsesForPeer_unknown rm responses from :
  Forall (λ r, inProgressRequestStatuses rm !! requestID r = None) responses →
  filterResponsesForPeer rm responses from = [].
Proof.
  induction 1 as [|r rest Hr _ IH]; [done|]. simpl. by rewrite Hr.
Qed.

Lemma handleProcessResponse_unknown rm from responses blks :
  Forall (λ r, inProgressRequestStatuses rm !! requestID r = None) responses →
  handle (processResponseMessage from responses blks) rm =
  ([ProcessResponse (metadataForResponses []) blks], rm, Value tt).
Proof.
  intros Hnone. simpl. rewrite handleProcessResponse_run. simpl.
  by rewrite filterResponsesForPeer_unknown.
Qed.

(** X22.  Responses for requests that are not in progress do nothing:
    the handler passes the blocks to the loader with empty metadata
    and leaves the manager as it is.  In particular, once a request
    was cancelled, or its traversal has ended, later responses for its
    id are dropped. *)
Theorem late_responses_dropped (rm : RequestManager) (from : peerID)
    (responses : list GraphSyncResponse) (blks : list BlockT)
    (i : GraphSyncRequestID) :
  (Forall (λ r, inProgressRequestStatuses rm !! requestID r = None) responses →
   handle (processResponseMessage from responses blks) rm =
   ([ProcessResponse (metadataForResponses []) blks], rm, Value tt)) ∧
  (Forall (λ r, requestID r = i) responses →
   let cancelled := managerOf (handle (cancelRequestMessage i) rm) in
   let ended := managerOf (handle (terminateRequestMessage i) rm) in
   handle (processResponseMessage from responses blks) cancelled =
     ([ProcessResponse (metadataForResponses []) blks], cancelled, Value tt) ∧
   handle (processResponseMessage from responses blks) ended =
     ([ProcessResponse (metadataForResponses []) blks], ended, Value tt)).
Proof.
  split; [apply handleProcessResponse_unknown|].
  intros Hi cancelled ended. split.
  - apply handleProcessResponse_unknown.
    eapply Forall_impl; [exact Hi|]. intros r Hr. simpl in Hr. rewrite Hr.
    unfold cancelled. simpl.
    unfold handleCancelRequest. rewrite bind_run. unfold lookupStatus.
    destruct (inProgressRequestStatuses rm !! i) eqn:Hlook;
      unfold managerOf; simpl; [apply lookup_delete_eq | done].
  - apply handleProcessResponse_unknown.
    eapply Forall_impl; [exact Hi|]. intros r Hr. simpl in Hr. rewrite Hr.
    unfold ended, managerOf. simpl. apply lookup_delete_eq.
Qed.

(** X23.  The peer filter returns the responses it keeps in the order
    of the batch, each as often as the batch has it, and filtering
    again changes nothing. *)
Theorem filter_keeps_order (rm : RequestManager) (from : peerID)
    (responses : list GraphSyncResponse) :
  sublist (filterResponsesForPeer rm responses from) responses ∧
  filterResponsesForPeer rm (filterResponsesForPeer rm responses from) from =
    filterResponsesForPeer rm responses from ∧
  (∀ more, filterResponsesForPeer rm (responses ++ more) from =
           filterResponsesForPeer rm responses from ++
           filterResponsesForPeer rm more from).
Proof.
  split; [|split].
  - induction responses as [|r rest IH]; simpl; [constructor|].
    destruct (inProgressRequestStatuses rm !! requestID r) as [st|];
      [|by constructor].
    case_decide; by constructor.
  - apply filterResponsesForPeer_idemp.
  - intros more. induction responses as [|r rest IH]; simpl; [done|].
    destruct (inProgressRequestStatuses rm !! requestID r) as [st|]; [|done].
    case_decide; [done|]. simpl. by rewrite IH.
Qed.

Lemma processTerminations_only_deletes (l : list GraphSyncResponse) : ∀ rm k st,
  inProgressRequestStatuses (managerOf (processTerminations l rm)) !! k = Some st →
  inProgressRequestStatuses rm !! k = Some st.
Proof.
  induction l as [|r rest IH]; intros rm k st; [done|].
  rewrite processTerminations_cons, processTermination_run.
  destruct (IsTerminalResponseCode (status r)).
  - destruct (IsTerminalFailureCode (status r)).
    + destruct (inProgressRequestStatuses rm !! requestID r) as [st'|]; [|done].
      specialize (IH (withoutStatus (requestID r) rm) k st).
      destruct (processTerminations rest _) as [[t rm'] out].
      unfold managerOf in *; simpl in *. intros Hk. apply IH in Hk.
      by apply lookup_delete_Some in Hk as [_ ?].
    + specialize (IH (withoutStatus (requestID r) rm) k st).
      destruct (processTerminations rest _) as [[t rm'] out].
      unfold managerOf in *; simpl in *. intros Hk. apply IH in Hk.
      by apply lookup_delete_Some in Hk as [_ ?].
  - specialize (IH rm k st).
    destruct (processTerminations rest rm) as [[t rm'] out]. exact IH.
Qed.

Lemma handle_keys (message : requestManagerMessage) (rm : RequestManager)
    (k : GraphSyncRequestID) :
  is_Some (inProgressRequestStatuses (managerOf (handle message rm)) !! k) →
  is_Some (inProgressRequestStatuses rm !! k) ∨
  (isNewRequest message = true ∧ k = nextRequestID rm).
Proof.
  destruct message as [to sel | i | from responses blks | i]; simpl.
  - unfold handleNewRequest, setupRequest. rewrite bind_run. simpl.
    destruct (EncodeNode sel) as [selectorBytes | err]; [|by left].
    destruct (DecodeSelectorSpec sel) as [[root s] | err]; [|by left].
    unfold managerOf; simpl. rewrite lookup_insert. case_decide; [by right | by left].
  - unfold handleCancelRequest. rewrite bind_run. unfold lookupStatus.
    destruct (inProgressRequestStatuses rm !! i) eqn:Hi; unfold managerOf; simpl;
      [|by left].
    intros [st Hk]. apply lookup_delete_Some in Hk as [_ Hk]. left. eauto.
  - rewrite handleProcessResponse_run. simpl.
    pose proof (processTerminations_only_deletes
                  (filterResponsesForPeer rm responses from) rm k) as Honly.
    destruct (processTerminations _ rm) as [[t rm'] out].
    unfold managerOf in *; simpl in *. intros [st Hk]. left. eauto.
  - unfold managerOf; simpl. intros [st Hk].
    apply lookup_delete_Some in Hk as [_ Hk]. left. eauto.
Qed.

Lemma run_keys (messages : list requestManagerMessage) : ∀ rm,
  0 ≤ nextRequestID rm →
  nextRequestID rm + Z.of_nat (newRequests messages) < 2 ^ 31 →
  (∀ k, is_Some (inProgressRequestStatuses rm !! k) → 0 ≤ k < nextRequestID rm) →
  let rm' := managerOf (run messages rm) in
  nextRequestID rm ≤ nextRequestID rm' ≤
    nextRequestID rm + Z.of_nat (newRequests messages) ∧
  ∀ k, is_Some (inProgressRequestStatuses rm' !! k) → 0 ≤ k < nextRequestID rm'.
Proof.
  change (2 ^ 31) with 2147483648.
  induction messages as [|m rest IH]; intros rm Hpos Hbound Hkeys.
  { simpl. unfold managerOf; simpl. split; [lia | done]. }
  rewrite run_cons.
  destruct (handle_ids m rm) as (_ & Hnext & _).
  pose proof (handle_keys m rm) as Hk.
  assert (Hcount : Z.of_nat (newRequests (m :: rest)) =
            (if isNewRequest m then 1 else 0) + Z.of_nat (newRequests rest)).
  { unfold newRequests. destruct (isNewRequest m) eqn:Hm.
    - rewrite filter_cons_True by done. simpl length. lia.
    - rewrite filter_cons_False by (rewrite Hm; done). lia. }
  rewrite Hcount in *.
  destruct (handle m rm) as [[t1 rm1] out1].
  unfold managerOf in Hnext, Hk; simpl in Hnext, Hk.
  assert (Hnext1 : nextRequestID rm1 =
            nextRequestID rm + (if isNewRequest m then 1 else 0)).
  { rewrite Hnext. destruct (isNewRequest m); [|lia].
    apply wrap32_small. unfold MinInt32, MaxInt32. lia. }
  assert (Hkeys1 : ∀ k, is_Some (inProgressRequestStatuses rm1 !! k) →
            0 ≤ k < nextRequestID rm1).
  { intros k Hsome. destruct (Hk k Hsome) as [Hold | [Hnew ->]].
    - apply Hkeys in Hold. destruct (isNewRequest m); lia.
    - rewrite Hnext1, Hnew. lia. }
  destruct out1 as [[]|h].
  - assert (Hpos1 : 0 ≤ nextRequestID rm1) by (destruct (isNewRequest m); lia).
    assert (Hbound1 : nextRequestID rm1 + Z.of_nat (newRequests rest) < 2147483648)
      by lia.
    destruct (IH rm1 Hpos1 Hbound1 Hkeys1) as [Hrange Hkeys2].
    destruct (run rest rm1) as [[t2 rm2] out2].
    unfold managerOf in *; simpl in *. split; [|done].
    destruct (isNewRequest m); lia.
  - unfold managerOf; simpl. split; [|done].
    destruct (isNewRequest m); lia.
Qed.

(** X24.  Over a run of a new manager with fewer than 2^31 new
    requests, every id in progress is one already given out (at least
    0 and below the counter), so the id the next request will get is
    not in progress: a new request never replaces an entry. *)
Theorem next_id_not_in_progress (messages : list requestManagerMessage) :
  Z.of_nat (newRequests messages) < 2 ^ 31 →
  let rm := managerOf (run messages New) in
  (∀ k, is_Some (inProgressRequestStatuses rm !! k) → 0 ≤ k < nextRequestID rm) ∧
  inProgressRequestStatuses rm !! nextRequestID rm = None.
Proof.
  intros Hcount rm.
  destruct (run_keys messages New) as [_ Hkeys]; simpl; [lia | lia | |].
  { intros k [st Hk]. by rewrite lookup_empty in Hk. }
  fold rm in Hkeys. split; [exact Hkeys|].
  apply eq_None_not_Some. intros Hsome. apply Hkeys in Hsome. lia.
Qed.

End RequestLife.

Section RequestLifeSamples.
Import Message RequestManager.

Lemma SendRequest_valid_selector_witness :
  @SendRequest bytesCollaborators MessageSent "alice" [x01] =
  Some (Waiting [@newRequestMessage bytesCollaborators "alice" [x01]]).
Proof.
  apply (@SendRequest_valid_selector bytesCollaborators "alice" [x01]).
  reflexivity.
Defined.

Lemma new_request_registered_then_sent_witness :
  sentFrames
    (logOf (@handle bytesCollaborators
              (@newRequestMessage bytesCollaborators "bob" [x02]) oneRequest)) =
  [("bob", NewRequest 1 [x02] 2147483647)].
Proof.
  rewrite (@new_request_registered_then_sent bytesCollaborators oneRequest "bob"
             [x02] [x02] [x02] [x02] eq_refl eq_refl).
  reflexivity.
Defined.

Lemma new_request_with_bad_selector_witness :
  sentFrames
    (logOf (@handle pickyCollaborators
              (@newRequestMessage pickyCollaborators "bob" []) New)) = [] ∧
  managerOf (@handle pickyCollaborators
               (@newRequestMessage pickyCollaborators "bob" []) New) =
  {| nextRequestID := 1; inProgressRequestStatuses := ∅ |}.
Proof.
  rewrite (@new_request_with_bad_selector pickyCollaborators New "bob" []
             "cannot encode an empty node" (or_introl eq_refl)).
  split; reflexivity.
Defined.

Lemma completedBatch_NoDup : NoDup (requestID <$> completedBatch).
Proof. apply NoDup_singleton. Qed.

Lemma batch_removes_terminated_requests_witness :
  inProgressRequestStatuses
    (managerOf (@handle bytesCollaborators
                  (@processResponseMessage bytesCollaborators "alice"
                     completedBatch oneBlock) oneRequest)) !! 0 = None.
Proof.
  destruct (@batch_removes_terminated_requests bytesCollaborators oneRequest
              "alice" completedBatch oneBlock completedBatch_NoDup)
    as (_ & _ & Hmap).
  rewrite Hmap. reflexivity.
Defined.

Lemma batch_completions_and_errors_witness :
  completedIDs
    (logOf (@handle bytesCollaborators
              (@processResponseMessage bytesCollaborators "alice"
                 completedBatch oneBlock) oneRequest)) = [0].
Proof.
  destruct (@batch_completions_and_errors bytesCollaborators oneRequest
              "alice" completedBatch oneBlock completedBatch_NoDup)
    as (Hcompl & _).
  rewrite Hcompl. reflexivity.
Defined.

Lemma other_peer_cannot_terminate_witness :
  inProgressRequestStatuses
    (managerOf (@handle bytesCollaborators
                  (@processResponseMessage bytesCollaborators "bob"
                     completedBatch oneBlock) oneRequest)) !! 0 =
  Some {| made := 0; p := "alice" |}.
Proof.
  apply (@other_peer_cannot_terminate bytesCollaborators oneRequest "bob"
           completedBatch oneBlock 0 {| made := 0; p := "alice" |}).
  - reflexivity.
  - discriminate.
Defined.

Lemma late_responses_dropped_witness :
  let cancelled :=
    managerOf (@handle bytesCollaborators (@cancelRequestMessage bytesCollaborators 0)
                 oneRequest) in
  @handle bytesCollaborators
    (@processResponseMessage bytesCollaborators "alice" completedBatch oneBlock)
    cancelled =
  ([@ProcessResponse bytesCollaborators
      (@metadataForResponses bytesCollaborators []) oneBlock],
   cancelled, Value tt).
Proof.
  apply (proj2 (@late_responses_dropped bytesCollaborators oneRequest "alice"
                  completedBatch oneBlock 0)).
  repeat constructor.
Defined.

Lemma next_id_not_in_progress_witness :
  inProgressRequestStatuses
    (managerOf (@run bytesCollaborators threeRequests New))
    !! nextRequestID (managerOf (@run bytesCollaborators threeRequests New)) = None.
Proof.
  apply (@next_id_not_in_progress bytesCollaborators threeRequests).
  vm_compute. reflexivity.
Defined.

End RequestLifeSamples.
